(** * Wordlist generator (generator.py): shallow embedding and properties

    The development follows [generator.py]: the text primitives the module
    uses ([str.strip], [re.sub], [str.isdigit], the case conversions), the
    leetspeak table and [apply_leet], [apply_patterns], [_stem_word],
    [_clean_seeds] and [generate_wordlist].

    Modelling choices.
    - A Python [str] is a [string]; a character is an 8-bit [ascii] code
      point.  The whitespace class of [strip] and [isspace] is Python's
      over the whole 8-bit range.  The classes of letters and digits and
      the case conversions are the ASCII ones: [_clean_seeds] removes
      every character outside [[a-zA-Z0-9]] before [isdigit], [isalpha]
      or a case conversion meets a token (or the stem of one), and the
      keys of the leetspeak table are ASCII letters.
    - A Python [set] of strings is a [gset string].  Iterating a set
      ([list(s)], [for x in s], [sorted(s)]) visits its elements in an
      order the language does not fix: the order is a parameter
      ([SetIter]), and nothing is assumed about it beyond its being an
      enumeration of the set.
    - The NLTK stemmer is third-party code: it is a parameter
      ([PorterStemmer], [None] when the import failed).
    - [options] is a record of the two keys the function documents; a key
      that is absent (or holds [None]) is [None].
    - Every function is total: no statement of the module raises on the
      inputs of these types.

    Beyond the generator, the development covers what the other modules
    do with text: [save_wordlist], the seed collection and the [generate]
    command of [main.py] ([write_lines], the [--seeds] and [--from-file]
    readers), the seed string [app.py] builds, and [charset_size] of
    [analyzer.py].  There the file system is reduced to the text read and
    the text written, the command starts from its parsed arguments with
    the generator imported, and writing succeeds. *)

From Stdlib Require Import ZArith NArith Ascii.
From stdpp Require Import gmap strings list sorting pretty.

Set Warnings "-clear-no-such-hyp".

(** ** Text primitives *)

Module Str.

Definition ord (c : ascii) : N := N_of_ascii c.

Definition chr (n : N) : ascii := ascii_of_N n.

Definition in_range (lo hi : N) (c : ascii) : bool :=
  ((lo <=? ord c) && (ord c <=? hi))%N.

Definition is_upper (c : ascii) : bool := in_range 65 90 c.

Definition is_lower (c : ascii) : bool := in_range 97 122 c.

Definition is_digit (c : ascii) : bool := in_range 48 57 c.

Definition is_alpha (c : ascii) : bool := is_upper c || is_lower c.

(** The class [[a-zA-Z0-9]] of the regular expression. *)
Definition is_alnum (c : ascii) : bool := is_alpha c || is_digit c.

(** Python's whitespace below code point 256: TAB..CR, FS..US, space,
    NEL and NBSP. *)
Definition is_space (c : ascii) : bool :=
  in_range 9 13 c || in_range 28 32 c || (ord c =? 133)%N || (ord c =? 160)%N.

Definition to_lower (c : ascii) : ascii :=
  if is_upper c then chr (ord c + 32) else c.

Definition to_upper (c : ascii) : ascii :=
  if is_lower c then chr (ord c - 32) else c.

Fixpoint chars (s : string) : list ascii :=
  match s with
  | EmptyString => []
  | String c r => c :: chars r
  end.

Fixpoint map (f : ascii → ascii) (s : string) : string :=
  match s with
  | EmptyString => EmptyString
  | String c r => String (f c) (map f r)
  end.

Fixpoint keep (p : ascii → bool) (s : string) : string :=
  match s with
  | EmptyString => EmptyString
  | String c r => if p c then String c (keep p r) else keep p r
  end.

Fixpoint all (p : ascii → bool) (s : string) : bool :=
  match s with
  | EmptyString => true
  | String c r => p c && all p r
  end.

(** [bool(s)]: a string is truthy when it is not empty. *)
Definition truthy (s : string) : bool :=
  match s with
  | EmptyString => false
  | String _ _ => true
  end.

Definition len (s : string) : Z := Z.of_nat (String.length s).

Definition lower (s : string) : string := map to_lower s.

Definition upper (s : string) : string := map to_upper s.

Definition capitalize (s : string) : string :=
  match s with
  | EmptyString => EmptyString
  | String c r => String (to_upper c) (lower r)
  end.

(** [s.isdigit()], [s.isalpha()], [s.isspace()]: false on the empty
    string, else every character is in the class. *)
Definition isdigit (s : string) : bool := truthy s && all is_digit s.

Definition isalpha (s : string) : bool := truthy s && all is_alpha s.

Definition isspace (s : string) : bool := truthy s && all is_space s.

Fixpoint lstrip (s : string) : string :=
  match s with
  | EmptyString => EmptyString
  | String c r => if is_space c then lstrip r else s
  end.

Fixpoint rstrip (s : string) : string :=
  match s with
  | EmptyString => EmptyString
  | String c r =>
      match rstrip r with
      | EmptyString => if is_space c then EmptyString else String c EmptyString
      | r' => String c r'
      end
  end.

Definition strip (s : string) : string := rstrip (lstrip s).

(** [re.sub(r"[^a-zA-Z0-9]", "", s)]. *)
Definition re_sub_non_alnum (s : string) : string := keep is_alnum s.

End Str.

(** ** Sets and their iteration order *)

(** [final.add(x)]. *)
Definition set_add (x : string) (s : gset string) : gset string := {[ x ]} ∪ s.

(** The order in which a run enumerates a set. *)
Class SetIter := {
  iter : gset string → list string;
  iter_perm : ∀ X, iter X ≡ₚ elements X
}.

(** [set(l)]. *)
Definition set_of (l : list string) : gset string := list_to_set l.

(** ** Leetspeak *)

Definition LEET_MAP : gmap ascii (list string) :=
  list_to_map
    [ ("a"%char, ["a"; "@"; "4"]);
      ("e"%char, ["e"; "3"]);
      ("i"%char, ["i"; "1"; "!"]);
      ("o"%char, ["o"; "0"]);
      ("s"%char, ["s"; "$"; "5"]);
      ("t"%char, ["t"; "7"]) ].

(** [LEET_MAP.get(ch, [ch])]. *)
Definition leet_options (ch : ascii) : list string :=
  default [String ch EmptyString] (LEET_MAP !! ch).

(** One round of the outer loop of [apply_leet]: every prefix extended by
    every option, prefixes outermost. *)
Definition leet_extend (variations : list string) (ch : ascii) : list string :=
  prefix ← variations; (λ op, prefix +:+ op) <$> leet_options ch.

Definition leet_variations (word : string) : list string :=
  foldl leet_extend [""] (Str.chars (Str.lower word)).

Definition apply_leet `{SetIter} (word : string) : list string :=
  if Str.truthy word then iter (set_of (leet_variations word)) else [].

(** ** Patterns *)

Definition symbols : list string := ["!"; "@"; "#"; "$"; "_"; "."].

(** Body of [for y in years] (year suffix / prefix patterns). *)
Definition year_patterns (word : string) (final : gset string) (y : string)
  : gset string :=
  if Str.truthy y then
    let final := set_add (word +:+ y) final in
    let final := set_add ((word +:+ "_") +:+ y) final in
    set_add (y +:+ word) final
  else final.

(** Body of the inner [for y in years] under [if years]. *)
Definition symbol_year_patterns (word sym : string) (final : gset string)
  (y : string) : gset string :=
  let final := set_add ((word +:+ sym) +:+ y) final in
  set_add ((sym +:+ word) +:+ y) final.

(** Body of [for sym in symbols]. *)
Definition symbol_patterns (word : string) (years : list string)
  (final : gset string) (sym : string) : gset string :=
  let final := set_add (word +:+ sym) final in
  let final := set_add (sym +:+ word) final in
  let final := set_add (word +:+ (sym +:+ sym)) final in
  match years with
  | [] => final
  | _ :: _ => foldl (symbol_year_patterns word sym) final years
  end.

(** Body of [for word in words]. *)
Definition word_patterns (years : list string) (final : gset string)
  (word : string) : gset string :=
  if Str.truthy word then
    let final := set_add word final in
    let final := foldl (year_patterns word) final years in
    foldl (symbol_patterns word years) final symbols
  else final.

Definition patterns_set (words years : list string) : gset string :=
  foldl (word_patterns years) ∅ words.

Definition apply_patterns `{SetIter} (words years : list string) : list string :=
  iter (patterns_set words years).

(** ** Stemming *)

(** The stemmer of NLTK: [Some stem] when the import succeeded
    ([_HAS_NLTK]), [None] otherwise. *)
Class Nltk := PorterStemmer : option (string → string).

Definition stem_variants `{Nltk} (word : string) : gset string :=
  let variants : gset string := {[ word ]} in
  match PorterStemmer with
  | Some stemmer =>
      if Str.isalpha word then
        let stem := stemmer (Str.lower word) in
        if Str.truthy stem && bool_decide (stem ≠ Str.lower word)
        then set_add stem variants
        else variants
      else variants
  | None => variants
  end.

Definition _stem_word `{SetIter, Nltk} (word : string) : list string :=
  iter (stem_variants word).

(** ** Seed cleaning *)

(** Body of [for seed in seeds]; the accumulator is
    [(clean_words, clean_numbers)]. *)
Definition clean_seed (acc : list string * list string) (seed : string)
  : list string * list string :=
  let seed := Str.strip seed in
  if Str.truthy seed then
    let cleaned := Str.re_sub_non_alnum seed in
    if Str.truthy cleaned then
      if Str.isdigit cleaned
      then (acc.1, acc.2 ++ [cleaned])
      else (acc.1 ++ [cleaned], acc.2)
    else acc
  else acc.

Definition _clean_seeds (seeds : list string) : list string * list string :=
  foldl clean_seed ([], []) seeds.

(** ** The generator *)

Record Options := { opt_length : option Z; opt_rules : option string }.

(** [int(options.get("length", 12) or 12)]. *)
Definition max_len_of (options : Options) : Z :=
  match opt_length options with
  | Some n => if (n =? 0)%Z then 12%Z else n
  | None => 12%Z
  end.

(** Body of [for base in _stem_word(w)]. *)
Definition base_variations `{SetIter} (word_variations : list string)
  (base : string) : list string :=
  (word_variations ++ apply_leet base)
    ++ [Str.lower base; Str.capitalize base; Str.upper base].

Definition collect_variations `{SetIter, Nltk} (clean_words : list string)
  : list string :=
  foldl (λ acc w, foldl base_variations acc (_stem_word w)) [] clean_words.

(** [word_variations] after the early deduplication. *)
Definition word_variations `{SetIter, Nltk} (clean_words : list string)
  : list string :=
  iter (set_of (collect_variations clean_words)).

(** Simple word+number combos. *)
Definition number_combos (words numbers : list string) (final : gset string)
  : gset string :=
  foldl (λ final w,
           foldl (λ final num, set_add (num +:+ w) (set_add (w +:+ num) final))
                 final numbers)
        final words.

Definition add_each (l : list string) (final : gset string) : gset string :=
  foldl (λ final x, set_add x final) final l.

Definition common_suffixes : list string := ["123"; "!"; "!"; "99"; "007"].

(** Body of [for w in list(final)]. *)
Definition suffix_round (max_len : Z) (final : gset string) (w : string)
  : gset string :=
  foldl (λ final suf,
           let candidate := w +:+ suf in
           if (Str.len candidate <=? max_len)%Z
           then set_add candidate final else final)
        final common_suffixes.

(** The loop runs over a snapshot of [final]. *)
Definition add_suffixes `{SetIter} (max_len : Z) (final : gset string)
  : gset string :=
  foldl (suffix_round max_len) final (iter final).

(** The test of the final comprehension. *)
Definition keeps (max_len : Z) (w : string) : bool :=
  (3 <=? Str.len w)%Z && (Str.len w <=? max_len)%Z && negb (Str.isspace w).

(** [final] as it stands before the final filtering. *)
Definition final_set `{SetIter, Nltk} (seeds : list string) (max_len : Z)
  : gset string :=
  let '(clean_words, clean_numbers) := _clean_seeds seeds in
  let word_variations := word_variations clean_words in
  let patterned := apply_patterns word_variations clean_numbers in
  let final := number_combos word_variations clean_numbers ∅ in
  let final := add_each patterned final in
  let final := add_each clean_numbers final in
  let final := add_each word_variations final in
  add_suffixes max_len final.

(** [sorted]: ascending in Python's order on [str], code point by code
    point with a proper prefix first. *)
Definition sorted (l : list string) : list string := merge_sort String.le l.

(** Python's [a < b] on [str]. *)
Definition str_lt (a b : string) : Prop := String.compare a b = Lt.

Definition generate_wordlist `{SetIter, Nltk} (seeds : list string)
  (options : Options) : list string :=
  let max_len := max_len_of options in
  let filtered : gset string :=
    filter (λ w, keeps max_len w = true) (final_set seeds max_len) in
  sorted (iter filtered).

(** ** Vocabulary of the statements *)

(** The length bound as the caller supplied it: the value under
    ["length"], 12 when the key is absent. *)
Definition supplied_length (options : Options) : Z :=
  default 12%Z (opt_length options).

(** The token a seed is cleaned to: stripped, then without the characters
    outside [[a-zA-Z0-9]]. *)
Definition cleaned_token (seed : string) : string :=
  Str.re_sub_non_alnum (Str.strip seed).

(** A cleaned token is a number when it is not empty and all its
    characters are digits, a word when it is not empty and some character
    is not a digit. *)
Definition is_number_token (t : string) : Prop :=
  t ≠ "" ∧ Str.all Str.is_digit t = true.

Definition is_word_token (t : string) : Prop :=
  t ≠ "" ∧ Str.all Str.is_digit t ≠ true.

(** The characters of the symbol alphabet. *)
Definition is_symbol (c : ascii) : bool :=
  bool_decide (c ∈ ["!"; "@"; "#"; "$"; "_"; "."]%char).

Definition allowed (c : ascii) : bool := Str.is_alnum c || is_symbol c.

(** The number of options the substitution table gives a character, as
    the specification lists them. *)
Definition leet_factor (ch : ascii) : nat :=
  match ch with
  | "a" | "i" | "s" => 3
  | "e" | "o" | "t" => 2
  | _ => 1
  end%char.

Definition product (l : list nat) : nat := foldr Nat.mul 1 l.

(** What one base string contributes to [word_variations]. *)
Definition variation_of (base x : string) : Prop :=
  (base ≠ "" ∧ x ∈ leet_variations base)
  ∨ x = Str.lower base ∨ x = Str.capitalize base ∨ x = Str.upper base.

Definition is_variation `{Nltk} (clean_words : list string) (x : string) : Prop :=
  ∃ w base, w ∈ clean_words ∧ base ∈ stem_variants w ∧ variation_of base x.

(** The strings [apply_patterns] derives from one variant [v]. *)
Definition pattern_of (years : list string) (v x : string) : Prop :=
  v ≠ "" ∧
  (x = v
   ∨ (∃ n, n ∈ years ∧ n ≠ "" ∧
        (x = v +:+ n ∨ x = (v +:+ "_") +:+ n ∨ x = n +:+ v))
   ∨ (∃ s, s ∈ symbols ∧
        (x = v +:+ s ∨ x = s +:+ v ∨ x = v +:+ (s +:+ s)
         ∨ ∃ n, n ∈ years ∧ (x = (v +:+ s) +:+ n ∨ x = (s +:+ v) +:+ n)))).

(** Membership in [final] before and after the suffix loop, free of any
    iteration order. *)
Definition is_base `{Nltk} (clean_words numbers : list string) (x : string)
  : Prop :=
  (∃ w num, is_variation clean_words w ∧ num ∈ numbers
            ∧ (x = w +:+ num ∨ x = num +:+ w))
  ∨ (∃ v, is_variation clean_words v ∧ pattern_of numbers v x)
  ∨ x ∈ numbers
  ∨ is_variation clean_words x.

Definition is_candidate `{Nltk} (clean_words numbers : list string)
  (max_len : Z) (x : string) : Prop :=
  is_base clean_words numbers x
  ∨ ∃ w suf, is_base clean_words numbers w ∧ suf ∈ common_suffixes
             ∧ x = w +:+ suf ∧ (Str.len x ≤ max_len)%Z.

(** ** Concrete parameters *)

(** Two iteration orders: the order of [elements], and its reverse. *)
Definition elements_iter : SetIter :=
  {| iter := elements; iter_perm := λ X, reflexivity (elements X) |}.

Definition reversed_iter : SetIter :=
  {| iter := λ X, reverse (elements X);
     iter_perm := λ X, reverse_Permutation (elements X) |}.

(** A run without NLTK, and a run with a stand-in stemmer that drops a
    final [s]. *)
Definition no_nltk : Nltk := None.

Fixpoint drop_final_s (w : string) : string :=
  match w with
  | EmptyString => EmptyString
  | String c EmptyString =>
      if bool_decide (c = "s"%char) then EmptyString else w
  | String c r => String c (drop_final_s r)
  end.

Definition plural_nltk : Nltk := Some drop_final_s.

Definition length_option (n : Z) : Options :=
  {| opt_length := Some n; opt_rules := None |}.

Definition default_options : Options :=
  {| opt_length := None; opt_rules := None |}.

(** ** Vocabulary of the further statements *)

(** What a cleaned word of [n] characters may add to [word_variations]
    without stemming: its leetspeak variants and three case forms. *)
Definition variations_budget (w : string) : nat := 3 ^ String.length w + 3.

(** ** Word-list files and the command line (generator.py, main.py, app.py)

    The file system is reduced to what the code needs of it: the text of
    the seed file, if there is one, and the text a command leaves in the
    file it opens for writing.  Files are opened in text mode: a written
    ["\n"] is stored as it is, and reading turns ["\r\n"] and ["\r"] into
    ["\n"]. *)

Definition LF : ascii := "010"%char.

Definition CR : ascii := "013"%char.

(** [save_wordlist(path, words)] of generator.py: the text its calls of
    [f.write(w + "\n")] leave in the file. *)
Definition save_wordlist (words : list string) : string :=
  foldl (λ text w, text +:+ (w +:+ String LF "")) "" words.

(** [write_lines(path, lines)] of main.py: the text its calls of
    [fh.write(f"{line}\n")] leave in the file. *)
Definition write_lines (lines : list string) : string :=
  foldl (λ text line, text +:+ (line +:+ String LF "")) "" lines.

(** Newline translation on reading. *)
Fixpoint universal_newlines (text : string) : string :=
  match text with
  | EmptyString => EmptyString
  | String c rest =>
      if bool_decide (c = CR) then
        match rest with
        | String d rest' =>
            if bool_decide (d = LF)
            then String LF (universal_newlines rest')
            else String LF (universal_newlines rest)
        | EmptyString => String LF EmptyString
        end
      else String c (universal_newlines rest)
  end.

(** The lines of a text, each with its ["\n"], the last one as it is. *)
Fixpoint split_lines (text : string) : list string :=
  match text with
  | EmptyString => []
  | String c rest =>
      if bool_decide (c = LF) then String c EmptyString :: split_lines rest
      else match split_lines rest with
           | [] => [String c EmptyString]
           | ln :: lns => String c ln :: lns
           end
  end.

(** [for ln in fh]. *)
Definition file_lines (text : string) : list string :=
  split_lines (universal_newlines text).

(** [[x.strip() for x in xs if x.strip()]]. *)
Definition stripped_nonempty (xs : list string) : list string :=
  x ← xs; if Str.truthy (Str.strip x) then [Str.strip x] else [].

(** [[ln.strip() for ln in fh if ln.strip()]] (main.py, [--from-file]). *)
Definition read_seeds (text : string) : list string :=
  stripped_nonempty (file_lines text).

(** [s.split(sep)] for a one-character separator. *)
Fixpoint split (sep : ascii) (s : string) : list string :=
  match s with
  | EmptyString => [EmptyString]
  | String c rest =>
      if bool_decide (c = sep) then EmptyString :: split sep rest
      else match split sep rest with
           | [] => [String c EmptyString]
           | p :: ps => String c p :: ps
           end
  end.

(** [sep.join(l)]. *)
Fixpoint join (sep : string) (l : list string) : string :=
  match l with
  | [] => EmptyString
  | [x] => x
  | x :: l' => x +:+ (sep +:+ join sep l')
  end.

(** [[s.strip() for s in args.seeds.split(",") if s.strip()]] (main.py,
    [--seeds]). *)
Definition parse_seeds (arg : string) : list string :=
  stripped_nonempty (split "," arg).

(** [seeds_arg = ",".join(seeds)] (app.py, a list under ["seeds"]). *)
Definition seeds_arg (seeds : list string) : string := join "," seeds.

(** The arguments of [main.py generate] after parsing.  [arg_from_file] is
    [None] without [--from-file], [Some None] when the file named does not
    exist, and [Some (Some text)] with the text of the file. *)
Record GenerateArgs := {
  arg_from_file : option (option string);
  arg_seeds : option string;
  arg_name : option string;
  arg_pet : option string;
  arg_year : option Z;
  arg_length : Z;
  arg_rules : string;
  arg_out : string
}.

(** [if args.name: seeds.append(args.name)]. *)
Definition append_if_given (seeds : list string) (arg : option string)
  : list string :=
  match arg with
  | Some s => if Str.truthy s then seeds ++ [s] else seeds
  | None => seeds
  end.

(** The seed collection of the [generate] command; [str(args.year)] is the
    decimal numeral. *)
Definition collect_seeds (args : GenerateArgs) : list string :=
  let seeds :=
    match arg_from_file args with
    | Some (Some text) => read_seeds text
    | Some None => []
    | None =>
        match arg_seeds args with
        | Some s => if Str.truthy s then parse_seeds s else []
        | None => []
        end
    end in
  let seeds := append_if_given seeds (arg_name args) in
  let seeds := append_if_given seeds (arg_pet args) in
  match arg_year args with
  | Some year => if (year =? 0)%Z then seeds else seeds ++ [pretty year]
  | None => seeds
  end.

(** How the command ends: [sys.exit(code)], or the text written to the
    output file. *)
Inductive Outcome :=
  | Exit (code : Z)
  | Wrote (path : string) (text : string).

Definition main_generate `{SetIter, Nltk} (args : GenerateArgs) : Outcome :=
  match arg_from_file args with
  | Some None => Exit 2
  | _ =>
      let seeds := collect_seeds args in
      let options :=
        {| opt_length := Some (arg_length args);
           opt_rules := Some (arg_rules args) |} in
      match seeds with
      | [] => Exit 2
      | _ :: _ => Wrote (arg_out args) (write_lines (generate_wordlist seeds options))
      end
  end.

Definition without_year (args : GenerateArgs) : GenerateArgs :=
  {| arg_from_file := arg_from_file args; arg_seeds := arg_seeds args;
     arg_name := arg_name args; arg_pet := arg_pet args; arg_year := None;
     arg_length := arg_length args; arg_rules := arg_rules args;
     arg_out := arg_out args |}.

(** No whitespace anywhere in the string. *)
Definition no_space (s : string) : Prop :=
  Str.all (λ c, negb (Str.is_space c)) s = true.

Definition no_comma (s : string) : Prop :=
  Str.all (λ c, negb (bool_decide (c = ","%char))) s = true.

(** ** The character-set estimate (analyzer.py)

    The tests [c.islower()], [c.isupper()], [c.isdigit()] and
    [c.isalnum()] are the ASCII classes, exact on ASCII text. *)

(** [any(p(c) for c in s)]. *)
Fixpoint any_char (p : ascii → bool) (s : string) : bool :=
  match s with
  | EmptyString => false
  | String c r => p c || any_char p r
  end.

Definition charset_size (password : string) : Z :=
  let size := 0%Z in
  let size := if any_char Str.is_lower password then (size + 26)%Z else size in
  let size := if any_char Str.is_upper password then (size + 26)%Z else size in
  let size := if any_char Str.is_digit password then (size + 10)%Z else size in
  let size :=
    if any_char (λ c, negb (Str.is_alnum c)) password then (size + 32)%Z else size in
  size.

(** Every code point is below 128. *)
Definition ascii_text (s : string) : Prop :=
  Str.all (λ c, (Str.ord c <? 128)%N) s = true.

(** ** The definitions at work *)

Example strip_example : Str.strip "  a b  " = "a b".
Proof. reflexivity. Qed.

Example capitalize_example : Str.capitalize "aLICE1" = "Alice1".
Proof. reflexivity. Qed.

Example max_len_examples :
  max_len_of default_options = 12%Z
  ∧ max_len_of (length_option 10) = 10%Z
  ∧ max_len_of (length_option 0) = 12%Z
  ∧ max_len_of (length_option (-5)) = (-5)%Z.
Proof. by split_and!. Qed.

Example clean_seeds_example :
  _clean_seeds ["  alice "; "19-97"; "!!"; "abc123"; ""]
  = (["alice"; "abc123"], ["1997"]).
Proof. reflexivity. Qed.

Example leet_variations_example :
  leet_variations "At" = ["at"; "a7"; "@t"; "@7"; "4t"; "47"].
Proof. reflexivity. Qed.

(** Scenario C of the specification, under both iteration orders. *)
Example generate_wordlist_bob_3 :
  @generate_wordlist elements_iter no_nltk ["bob"] (length_option 3)
  = ["BOB"; "Bob"; "b0b"; "bob"]
  ∧ @generate_wordlist reversed_iter no_nltk ["bob"] (length_option 3)
    = ["BOB"; "Bob"; "b0b"; "bob"].
Proof. split; vm_compute; reflexivity. Qed.

(** ** Iteration and accumulation *)

Section iteration.
Context `{SetIter}.

Lemma elem_of_iter (X : gset string) x : x ∈ iter X ↔ x ∈ X.
Proof. by rewrite (iter_perm X), elem_of_elements. Qed.

Lemma NoDup_iter (X : gset string) : NoDup (iter X).
Proof. rewrite (iter_perm X). apply NoDup_elements. Qed.

Lemma length_iter (X : gset string) : length (iter X) = size X.
Proof. by rewrite (iter_perm X). Qed.


End iteration.

Lemma elem_of_set_add x y (s : gset string) : y ∈ set_add x s ↔ y = x ∨ y ∈ s.
Proof. unfold set_add. set_solver. Qed.

Lemma elem_of_set_of (l : list string) x : x ∈ set_of l ↔ x ∈ l.
Proof. unfold set_of. apply elem_of_list_to_set. Qed.

(** A loop that only adds to its accumulator: the result holds what the
    accumulator held and what each round contributes. *)
Lemma elem_of_foldl `{ElemOf string C} {A} (f : C → A → C)
  (P : A → string → Prop) :
  (∀ acc a y, y ∈ f acc a ↔ y ∈ acc ∨ P a y) →
  ∀ l acc y, y ∈ foldl f acc l ↔ y ∈ acc ∨ ∃ a, a ∈ l ∧ P a y.
Proof.
  intros Hf l. induction l as [|a l IH]; intros acc y; simpl.
  - split; [auto|]. intros [?|(a & Ha & _)]; [done|]. by apply elem_of_nil in Ha.
  - rewrite IH, Hf. split.
    + intros [[?|?]|(b & ? & ?)]; [by left|right..].
      * exists a. split; [left|done].
      * exists b. split; [by right|done].
    + intros [?|(b & [->|?]%elem_of_cons & ?)]; [by left; left| by left; right|].
      right. by exists b.
Qed.

Lemma elem_of_sorted l x : x ∈ sorted l ↔ x ∈ l.
Proof. unfold sorted. by rewrite merge_sort_Permutation. Qed.

Lemma str_le_lt a b : String.le a b → a ≠ b → str_lt a b.
Proof.
  unfold String.le, String.leb, str_lt. intros Hle Hne.
  destruct (String.compare a b) eqn:E; [|done|done].
  by apply String.compare_eq_iff in E.
Qed.



Lemma StronglySorted_strict l :
  StronglySorted String.le l → NoDup l → StronglySorted str_lt l.
Proof.
  induction 1 as [|a l Hl IH Ha]; intros Hnd; [constructor|].
  apply NoDup_cons in Hnd as [Hnotin Hnd]. constructor; [auto|].
  apply Forall_forall. intros b Hb. apply str_le_lt.
  - by eapply Forall_forall in Ha.
  - intros ->. done.
Qed.

(** ** Text lemmas *)

Lemma truthy_true s : Str.truthy s = true ↔ s ≠ "".
Proof. by destruct s. Qed.

Lemma truthy_false s : Str.truthy s = false ↔ s = "".
Proof. by destruct s. Qed.

Lemma app_nil_str t : "" +:+ t = t.
Proof. reflexivity. Qed.

Lemma app_cons_str c s t : String c s +:+ t = String c (s +:+ t).
Proof. reflexivity. Qed.


Lemma app_assoc_str a b c : (a +:+ b) +:+ c = a +:+ (b +:+ c).
Proof. induction a; rewrite ?app_cons_str; [done|]. by f_equal. Qed.

Lemma length_app_str a b :
  String.length (a +:+ b) = String.length a + String.length b.
Proof. induction a; rewrite ?app_cons_str; simpl; [done|]. by f_equal. Qed.




Lemma all_app p a b : Str.all p (a +:+ b) = Str.all p a && Str.all p b.
Proof. induction a; rewrite ?app_cons_str; simpl; [done|]. by rewrite IHa, andb_assoc. Qed.

Lemma all_keep p s : Str.all p (Str.keep p s) = true.
Proof.
  induction s as [|c s IH]; simpl; [done|].
  destruct (p c) eqn:E; simpl; [|done]. by rewrite E.
Qed.

Lemma all_map (p : ascii → bool) f s :
  (∀ c, p c = true → p (f c) = true) →
  Str.all p s = true → Str.all p (Str.map f s) = true.
Proof.
  intros Hf. induction s as [|c s IH]; simpl; [done|].
  intros [? ?]%andb_true_iff. rewrite Hf, IH; done.
Qed.

Lemma all_impl (p q : ascii → bool) s :
  (∀ c, p c = true → q c = true) → Str.all p s = true → Str.all q s = true.
Proof.
  intros Hpq. induction s as [|c s IH]; simpl; [done|].
  intros [? ?]%andb_true_iff. rewrite Hpq, IH; done.
Qed.




(** Facts about single characters, by enumeration of the 256 code points. *)
Ltac by_code_point c := destruct c as [[] [] [] [] [] [] [] []]; vm_compute; done.



Lemma alnum_allowed c : Str.is_alnum c = true → allowed c = true.
Proof. unfold allowed. by intros ->. Qed.

Lemma allowed_to_lower c : allowed c = true → allowed (Str.to_lower c) = true.
Proof. by_code_point c. Qed.

Lemma allowed_to_upper c : allowed c = true → allowed (Str.to_upper c) = true.
Proof. by_code_point c. Qed.

Lemma allowed_not_space c : allowed c = true → Str.is_space c = false.
Proof. by_code_point c. Qed.

Lemma digit_to_lower c : Str.is_digit c = true → Str.to_lower c = c.
Proof. by_code_point c. Qed.


Lemma length_leet_options ch : length (leet_options ch) = leet_factor ch.
Proof. by_code_point ch. Qed.

Ltac decide_by_code_point c :=
  destruct c as [[] [] [] [] [] [] [] []];
  compute_done.

Lemma leet_options_NoDup ch : NoDup (leet_options ch).
Proof. decide_by_code_point ch. Qed.

Lemma leet_options_single ch :
  Forall (λ op, String.length op = 1) (leet_options ch).
Proof. decide_by_code_point ch. Qed.

Lemma leet_options_allowed ch :
  allowed ch = true →
  Forall (λ op, Str.all allowed op = true) (leet_options ch).
Proof. decide_by_code_point ch. Qed.

(** ** The stages, by membership *)

Section stages.
Context `{SetIter, Nltk}.

Lemma elem_of_apply_leet base x :
  x ∈ apply_leet base ↔ base ≠ "" ∧ x ∈ leet_variations base.
Proof.
  unfold apply_leet. destruct base as [|c r]; simpl.
  - split; [by intros ?%elem_of_nil|by intros [? _]].
  - rewrite elem_of_iter, elem_of_set_of. naive_solver.
Qed.

Lemma elem_of_stem_word w base : base ∈ _stem_word w ↔ base ∈ stem_variants w.
Proof. apply elem_of_iter. Qed.

Lemma elem_of_base_variations acc base y :
  y ∈ base_variations acc base ↔ y ∈ acc ∨ variation_of base y.
Proof.
  unfold base_variations, variation_of.
  rewrite !elem_of_app, elem_of_apply_leet, !elem_of_cons, elem_of_nil.
  naive_solver.
Qed.

Lemma elem_of_collect_variations clean_words x :
  x ∈ collect_variations clean_words ↔ is_variation clean_words x.
Proof.
  unfold collect_variations, is_variation.
  rewrite (elem_of_foldl _ (λ w y, ∃ base, base ∈ stem_variants w ∧ variation_of base y)).
  - rewrite elem_of_nil. naive_solver.
  - intros acc w y.
    rewrite (elem_of_foldl _ variation_of) by apply elem_of_base_variations.
    setoid_rewrite elem_of_stem_word. done.
Qed.

Lemma elem_of_word_variations clean_words x :
  x ∈ word_variations clean_words ↔ is_variation clean_words x.
Proof.
  unfold word_variations.
  by rewrite elem_of_iter, elem_of_set_of, elem_of_collect_variations.
Qed.

Lemma elem_of_year_patterns word final n y :
  y ∈ year_patterns word final n ↔
  y ∈ final ∨ (n ≠ "" ∧ (y = word +:+ n ∨ y = (word +:+ "_") +:+ n ∨ y = n +:+ word)).
Proof.
  unfold year_patterns. destruct n as [|c r]; simpl; [naive_solver|].
  rewrite !elem_of_set_add. naive_solver.
Qed.

Lemma elem_of_symbol_year_patterns word sym final n y :
  y ∈ symbol_year_patterns word sym final n ↔
  y ∈ final ∨ y = (word +:+ sym) +:+ n ∨ y = (sym +:+ word) +:+ n.
Proof. unfold symbol_year_patterns. rewrite !elem_of_set_add. naive_solver. Qed.

Lemma elem_of_symbol_patterns word years final sym y :
  y ∈ symbol_patterns word years final sym ↔
  y ∈ final ∨
  (y = word +:+ sym ∨ y = sym +:+ word ∨ y = word +:+ (sym +:+ sym)
   ∨ ∃ n, n ∈ years ∧ (y = (word +:+ sym) +:+ n ∨ y = (sym +:+ word) +:+ n)).
Proof.
  unfold symbol_patterns. destruct years as [|n0 years].
  - rewrite !elem_of_set_add. setoid_rewrite elem_of_nil. naive_solver.
  - rewrite (elem_of_foldl _ (λ n y, y = (word +:+ sym) +:+ n ∨ y = (sym +:+ word) +:+ n))
      by apply elem_of_symbol_year_patterns.
    rewrite !elem_of_set_add. naive_solver.
Qed.

Lemma elem_of_word_patterns years final word y :
  y ∈ word_patterns years final word ↔ y ∈ final ∨ pattern_of years word y.
Proof.
  unfold word_patterns, pattern_of. destruct (Str.truthy word) eqn:E.
  - apply truthy_true in E.
    rewrite (elem_of_foldl _ _ (λ acc, elem_of_symbol_patterns word years acc)).
    rewrite (elem_of_foldl _ _ (λ acc, elem_of_year_patterns word acc)).
    rewrite elem_of_set_add. naive_solver.
  - apply truthy_false in E. naive_solver.
Qed.

Lemma elem_of_patterns_set words years x :
  x ∈ patterns_set words years ↔ ∃ v, v ∈ words ∧ pattern_of years v x.
Proof.
  unfold patterns_set.
  rewrite (elem_of_foldl _ _ (elem_of_word_patterns years)). set_solver.
Qed.

Lemma elem_of_apply_patterns words years x :
  x ∈ apply_patterns words years ↔ ∃ v, v ∈ words ∧ pattern_of years v x.
Proof. unfold apply_patterns. by rewrite elem_of_iter, elem_of_patterns_set. Qed.

Lemma elem_of_number_combos words numbers final x :
  x ∈ number_combos words numbers final ↔
  x ∈ final ∨ ∃ w, w ∈ words ∧ ∃ num, num ∈ numbers ∧ (x = w +:+ num ∨ x = num +:+ w).
Proof.
  unfold number_combos.
  apply (elem_of_foldl _
           (λ w y, ∃ num, num ∈ numbers ∧ (y = w +:+ num ∨ y = num +:+ w))).
  intros acc w y.
  rewrite (elem_of_foldl _ (λ num y, y = w +:+ num ∨ y = num +:+ w)); [done|].
  intros. rewrite !elem_of_set_add. naive_solver.
Qed.

Lemma elem_of_add_each l final x : x ∈ add_each l final ↔ x ∈ final ∨ x ∈ l.
Proof.
  unfold add_each. rewrite (elem_of_foldl _ (λ a y, y = a)).
  - naive_solver.
  - intros. rewrite elem_of_set_add. naive_solver.
Qed.

Lemma elem_of_suffix_round max_len final w x :
  x ∈ suffix_round max_len final w ↔
  x ∈ final ∨ ∃ suf, suf ∈ common_suffixes ∧ x = w +:+ suf ∧ (Str.len x ≤ max_len)%Z.
Proof.
  unfold suffix_round.
  apply (elem_of_foldl _ (λ suf y, y = w +:+ suf ∧ (Str.len y ≤ max_len)%Z)).
  intros acc suf y. simpl.
  destruct (Z.leb_spec (Str.len (w +:+ suf)) max_len).
  - rewrite elem_of_set_add. naive_solver.
  - split; [by left|]. intros [?|[-> ?]]; [done|lia].
Qed.

Lemma elem_of_add_suffixes max_len final x :
  x ∈ add_suffixes max_len final ↔
  x ∈ final ∨ ∃ w, w ∈ final ∧
     ∃ suf, suf ∈ common_suffixes ∧ x = w +:+ suf ∧ (Str.len x ≤ max_len)%Z.
Proof.
  unfold add_suffixes.
  rewrite (elem_of_foldl _ _ (elem_of_suffix_round max_len)).
  by setoid_rewrite elem_of_iter.
Qed.

Lemma elem_of_final_set seeds max_len x :
  x ∈ final_set seeds max_len ↔
  is_candidate (_clean_seeds seeds).1 (_clean_seeds seeds).2 max_len x.
Proof.
  unfold final_set. destruct (_clean_seeds seeds) as [clean_words numbers]. simpl.
  assert (∀ y, y ∈ add_each (word_variations clean_words)
                 (add_each numbers
                    (add_each (apply_patterns (word_variations clean_words) numbers)
                       (number_combos (word_variations clean_words) numbers ∅)))
               ↔ is_base clean_words numbers y) as Hbase.
  { intros y. unfold is_base.
    rewrite !elem_of_add_each, elem_of_number_combos, elem_of_apply_patterns.
    setoid_rewrite elem_of_word_variations. set_solver. }
  rewrite elem_of_add_suffixes. unfold is_candidate.
  rewrite Hbase. setoid_rewrite Hbase. naive_solver.
Qed.

Lemma elem_of_generate_wordlist seeds options w :
  w ∈ generate_wordlist seeds options ↔
  w ∈ final_set seeds (max_len_of options) ∧ keeps (max_len_of options) w = true.
Proof.
  unfold generate_wordlist. by rewrite elem_of_sorted, elem_of_iter, elem_of_filter, (comm and).
Qed.

End stages.

(** ** Seed cleaning *)

Lemma clean_seed_step acc seed :
  clean_seed acc seed =
  (acc.1 ++ filter is_word_token [cleaned_token seed],
   acc.2 ++ filter is_number_token [cleaned_token seed]).
Proof.
  unfold clean_seed, cleaned_token. destruct acc as [ws ns]. simpl.
  destruct (Str.strip seed) as [|c r] eqn:Es; simpl.
  { rewrite !filter_cons_False by (by intros [? _]). simpl. by rewrite !app_nil_r. }
  rewrite <- Es. clear Es c r.
  destruct (Str.re_sub_non_alnum (Str.strip seed)) as [|c r] eqn:Ec; simpl.
  { rewrite !filter_cons_False by (by intros [? _]). simpl. by rewrite !app_nil_r. }
  rewrite <- Ec. unfold Str.isdigit. rewrite Ec at 1. simpl.
  destruct (Str.all Str.is_digit _) eqn:Ed.
  - rewrite (filter_cons_False is_word_token) by (intros [_ ?]; done).
    rewrite (filter_cons_True is_number_token) by (split; [by rewrite Ec|done]).
    simpl. by rewrite app_nil_r.
  - rewrite (filter_cons_True is_word_token) by (split; [by rewrite Ec|congruence]).
    rewrite (filter_cons_False is_number_token) by (intros [_ ?]; congruence).
    simpl. by rewrite app_nil_r.
Qed.

Lemma clean_seeds_from acc seeds :
  foldl clean_seed acc seeds =
  (acc.1 ++ filter is_word_token (cleaned_token <$> seeds),
   acc.2 ++ filter is_number_token (cleaned_token <$> seeds)).
Proof.
  revert acc. induction seeds as [|seed seeds IH]; intros acc.
  - simpl. rewrite !filter_nil, !app_nil_r. by destruct acc.
  - rewrite fmap_cons. cbn [foldl]. rewrite IH, clean_seed_step. cbn [fst snd].
    by rewrite <- !app_assoc, <- !filter_app.
Qed.

Lemma clean_seeds_filter seeds :
  _clean_seeds seeds =
  (filter is_word_token (cleaned_token <$> seeds),
   filter is_number_token (cleaned_token <$> seeds)).
Proof. unfold _clean_seeds. by rewrite clean_seeds_from. Qed.

(** ** Tokens in the output *)

Lemma self_in_stem_variants `{Nltk} w : w ∈ stem_variants w.
Proof.
  unfold stem_variants. destruct PorterStemmer; [|set_solver].
  destruct (Str.isalpha w); [|set_solver].
  destruct (_ && _); [|set_solver]. apply elem_of_set_add. right. set_solver.
Qed.

Lemma elem_of_stem_variants `{Nltk} w base :
  base ∈ stem_variants w →
  base = w ∨ ∃ stemmer, PorterStemmer = Some stemmer ∧ Str.isalpha w = true
                        ∧ base = stemmer (Str.lower w).
Proof.
  unfold stem_variants. destruct PorterStemmer as [stemmer|]; [|set_solver].
  destruct (Str.isalpha w) eqn:Ea; [|set_solver].
  destruct (_ && _); [|set_solver].
  rewrite elem_of_set_add. intros [->|?]; [|set_solver].
  right. by exists stemmer.
Qed.

Lemma lower_digits s : Str.all Str.is_digit s = true → Str.lower s = s.
Proof.
  induction s as [|c s IH]; simpl; [done|].
  intros [Hc Hs]%andb_true_iff. unfold Str.lower in *. simpl.
  by rewrite digit_to_lower, IH.
Qed.

Lemma allowed_not_isspace s : Str.all allowed s = true → Str.isspace s = false.
Proof.
  destruct s as [|c r]; [done|]. simpl. intros [Hc _]%andb_true_iff.
  unfold Str.isspace. simpl. by rewrite (allowed_not_space c Hc).
Qed.

Lemma cleaned_token_alnum seed : Str.all Str.is_alnum (cleaned_token seed) = true.
Proof. apply all_keep. Qed.

Lemma allowed_lower s : Str.all allowed s = true → Str.all allowed (Str.lower s) = true.
Proof. apply all_map, allowed_to_lower. Qed.

Lemma allowed_upper s : Str.all allowed s = true → Str.all allowed (Str.upper s) = true.
Proof. apply all_map, allowed_to_upper. Qed.

Lemma allowed_capitalize s :
  Str.all allowed s = true → Str.all allowed (Str.capitalize s) = true.
Proof.
  destruct s as [|c r]; [done|]. simpl. intros [Hc Hr]%andb_true_iff.
  by rewrite allowed_to_upper, allowed_lower.
Qed.

Lemma alnum_all_allowed s : Str.all Str.is_alnum s = true → Str.all allowed s = true.
Proof. apply all_impl, alnum_allowed. Qed.

Lemma clean_seeds_token seeds seed :
  seed ∈ seeds → cleaned_token seed ≠ "" →
  (Str.all Str.is_digit (cleaned_token seed) = true
   ∧ cleaned_token seed ∈ (_clean_seeds seeds).2)
  ∨ (Str.all Str.is_digit (cleaned_token seed) ≠ true
     ∧ cleaned_token seed ∈ (_clean_seeds seeds).1).
Proof.
  intros Hin Hne. rewrite clean_seeds_filter. simpl.
  assert (cleaned_token seed ∈ cleaned_token <$> seeds) as Hin'
    by (by apply list_elem_of_fmap_2).
  destruct (Str.all Str.is_digit (cleaned_token seed)) eqn:Ed.
  - left. split; [done|]. by apply list_elem_of_filter.
  - right. split; [done|]. apply list_elem_of_filter. split; [|done].
    split; [done|congruence].
Qed.

Lemma lower_token_in_final_set `{SetIter, Nltk} seeds max_len seed :
  seed ∈ seeds → cleaned_token seed ≠ "" →
  Str.lower (cleaned_token seed) ∈ final_set seeds max_len.
Proof.
  intros Hin Hne. apply elem_of_final_set. left.
  destruct (clean_seeds_token seeds seed Hin Hne) as [[Hd Hn]|[_ Hw]].
  - right; right; left. by rewrite lower_digits.
  - right; right; right. exists (cleaned_token seed), (cleaned_token seed).
    split_and!; [done|apply self_in_stem_variants|]. right; left. done.
Qed.

Lemma lower_token_in_output `{SetIter, Nltk} seeds options seed :
  seed ∈ seeds → cleaned_token seed ≠ "" →
  (3 ≤ Str.len (Str.lower (cleaned_token seed)) ≤ max_len_of options)%Z →
  Str.lower (cleaned_token seed) ∈ generate_wordlist seeds options.
Proof.
  intros Hin Hne Hlen. apply elem_of_generate_wordlist. split.
  - by apply lower_token_in_final_set.
  - unfold keeps. rewrite !andb_true_iff, negb_true_iff. split_and!; [lia|lia|].
    apply allowed_not_isspace, allowed_lower, alnum_all_allowed, cleaned_token_alnum.
Qed.

Lemma max_len_of_supplied options :
  max_len_of options
  = if (supplied_length options =? 0)%Z then 12%Z else supplied_length options.
Proof. unfold max_len_of, supplied_length. by destruct (opt_length options). Qed.

Lemma supplied_within_max_len options (n : Z) :
  (3 ≤ n ≤ supplied_length options)%Z → (n ≤ max_len_of options)%Z.
Proof.
  unfold supplied_length, max_len_of. destruct (opt_length options) as [m|]; simpl.
  - destruct (Z.eqb_spec m 0); lia.
  - lia.
Qed.

(** ** Properties of [generate_wordlist] *)

Lemma keeps_bounds max_len w :
  keeps max_len w = true → (3 ≤ Str.len w ≤ max_len)%Z.
Proof. unfold keeps. rewrite !andb_true_iff. lia. Qed.

Lemma empty_by_members (l : list string) : (∀ x, x ∉ l) → l = [].
Proof. destruct l as [|a l]; [done|]. intros Hl. destruct (Hl a). left. Qed.

(** C1, the claim as stated fails: called with [length = 0], the function
    applies the default bound 12 and returns ["bob"], whose 3 characters
    exceed the supplied length 0. *)
Lemma length_zero_exceeds_supplied_bound :
  "bob" ∈ @generate_wordlist elements_iter no_nltk ["bob"] (length_option 0)
  ∧ ¬ (3 ≤ Str.len "bob" ≤ supplied_length (length_option 0))%Z.
Proof.
  split.
  - apply (@lower_token_in_output elements_iter no_nltk ["bob"] _ "bob");
      [compute_done|compute_done|vm_compute; split; discriminate].
  - vm_compute. intros [_ Hle]. by apply Hle.
Qed.

(** C1 (amended): every string [generate_wordlist] returns has length at
    least 3 and at most the supplied [length] (12 when none is supplied),
    except that a supplied [length] of 0 counts as 12. *)
Theorem generate_wordlist_length_bound `{SetIter, Nltk} seeds options w :
  w ∈ generate_wordlist seeds options →
  (3 ≤ Str.len w
   ≤ if (supplied_length options =? 0)%Z then 12 else supplied_length options)%Z.
Proof.
  intros [_ Hk]%elem_of_generate_wordlist. apply keeps_bounds in Hk.
  by rewrite max_len_of_supplied in Hk.
Qed.

Lemma generate_wordlist_length_bound_witness :
  (3 ≤ Str.len "bob" ≤ 4)%Z.
Proof.
  apply (@generate_wordlist_length_bound elements_iter no_nltk ["Bob"]
           (length_option 4) "bob").
  apply (@lower_token_in_output elements_iter no_nltk ["Bob"] _ "Bob");
    [compute_done|compute_done|vm_compute; split; discriminate].
Defined.

(** C2: the returned sequence has no duplicates and is strictly ascending
    in the lexicographic order of its strings. *)
Theorem generate_wordlist_strictly_ascending `{SetIter, Nltk} seeds options :
  NoDup (generate_wordlist seeds options)
  ∧ StronglySorted str_lt (generate_wordlist seeds options).
Proof.
  assert (NoDup (generate_wordlist seeds options)) as Hnd.
  { unfold generate_wordlist, sorted. rewrite merge_sort_Permutation. apply NoDup_iter. }
  split; [done|]. apply StronglySorted_strict; [|done].
  unfold generate_wordlist, sorted. apply StronglySorted_merge_sort; apply _.
Qed.

(** C4, the claim as stated fails: [length = 0] is below 3, yet the
    function applies the default bound 12 and the result holds ["bob"]:
    it is not empty. *)
Lemma length_zero_not_empty :
  (supplied_length (length_option 0) < 3)%Z
  ∧ @generate_wordlist elements_iter no_nltk ["bob"] (length_option 0) ≠ [].
Proof.
  split; [done|]. intros Hempty.
  assert ("bob" ∈ @generate_wordlist elements_iter no_nltk ["bob"] (length_option 0))
    as Hin.
  { apply (@lower_token_in_output elements_iter no_nltk ["bob"] _ "bob");
      [compute_done|compute_done|vm_compute; split; discriminate]. }
  rewrite Hempty in Hin. by apply elem_of_nil in Hin.
Qed.

(** C4 (amended): when the supplied [length] is below 3 and is not 0
    (negative, 1 or 2), [generate_wordlist] returns the empty sequence;
    it is a total function, so no error is raised. *)
Theorem generate_wordlist_short_length_empty `{SetIter, Nltk} seeds options n :
  opt_length options = Some n → n ≠ 0%Z → (n < 3)%Z →
  generate_wordlist seeds options = [].
Proof.
  intros Hn Hn0 Hlt. apply empty_by_members. intros w Hw.
  apply elem_of_generate_wordlist in Hw as [_ Hk]. apply keeps_bounds in Hk.
  unfold max_len_of in Hk. rewrite Hn in Hk.
  destruct (Z.eqb_spec n 0); lia.
Qed.

Lemma generate_wordlist_short_length_empty_witness :
  @generate_wordlist elements_iter no_nltk ["alice"; "1997"] (length_option (-1)) = []
  ∧ @generate_wordlist reversed_iter plural_nltk ["bob"] (length_option 2) = [].
Proof.
  split.
  - apply (@generate_wordlist_short_length_empty elements_iter no_nltk _ _ (-1)%Z);
      [reflexivity|lia|lia].
  - apply (@generate_wordlist_short_length_empty reversed_iter plural_nltk _ _ 2%Z);
      [reflexivity|lia|lia].
Defined.

(** C7: [_clean_seeds] sends each seed to its cleaned token (stripped,
    then without the characters outside [a-zA-Z0-9]); the non-empty tokens
    whose characters are all digits are the numbers, the other non-empty
    tokens are the words, each kept whole and in order; ["abc123"] is one
    word. *)
Theorem clean_seeds_classification seeds :
  (_clean_seeds seeds).1 = filter is_word_token (cleaned_token <$> seeds)
  ∧ (_clean_seeds seeds).2 = filter is_number_token (cleaned_token <$> seeds)
  ∧ (∀ t, is_number_token t ↔ t ≠ "" ∧ Str.isdigit t = true)
  ∧ (∀ t, is_word_token t ↔ t ≠ "" ∧ ¬ is_number_token t)
  ∧ _clean_seeds ["abc123"] = (["abc123"], []).
Proof.
  rewrite clean_seeds_filter. split_and!; try done.
  - intros t. unfold is_number_token, Str.isdigit.
    rewrite andb_true_iff, truthy_true. naive_solver.
  - intros t. unfold is_word_token, is_number_token. naive_solver.
Qed.

Lemma cleaned_token_discarded seed :
  Str.strip seed = "" ∨ cleaned_token seed = "" → cleaned_token seed = "".
Proof. unfold cleaned_token. by intros [->|?]. Qed.

Lemma clean_seeds_all_discarded seeds :
  Forall (λ seed, cleaned_token seed = "") seeds → _clean_seeds seeds = ([], []).
Proof.
  intros Hall. rewrite clean_seeds_filter.
  assert (∀ P : string → Prop, (∀ t, P t → t ≠ "") → ∀ `{!∀ t, Decision (P t)},
            filter P (cleaned_token <$> seeds) = []) as Hnil.
  { intros P HP ?. induction Hall as [|seed seeds Hseed _ IH]; [done|].
    rewrite fmap_cons, filter_cons_False; [done|]. intros ?%HP. done. }
  rewrite !Hnil; [done|by intros ? [? _]..].
Qed.

Lemma not_candidate_without_seeds `{Nltk} max_len x : ¬ is_candidate [] [] max_len x.
Proof.
  assert (∀ y, ¬ is_variation [] y) as Hv.
  { intros y (w & base & Hw & _). by apply elem_of_nil in Hw. }
  assert (∀ y, ¬ is_base [] [] y) as Hb.
  { intros y [(w & num & ?%Hv & _)|[(v & ?%Hv & _)|[?%elem_of_nil|?%Hv]]]; done. }
  intros [?%Hb|(w & suf & ?%Hb & _)]; done.
Qed.

(** C8: when [seeds] is empty, or every seed is empty once stripped or
    once cleaned, [generate_wordlist] returns the empty sequence; it is a
    total function, so no error is raised. *)
Theorem generate_wordlist_no_seeds_empty `{SetIter, Nltk} seeds options :
  Forall (λ seed, Str.strip seed = "" ∨ cleaned_token seed = "") seeds →
  generate_wordlist seeds options = [].
Proof.
  intros Hall. apply empty_by_members. intros w Hw.
  apply elem_of_generate_wordlist in Hw as [Hw _].
  apply elem_of_final_set in Hw. rewrite clean_seeds_all_discarded in Hw.
  - by apply not_candidate_without_seeds in Hw.
  - eapply Forall_impl; [done|]. apply cleaned_token_discarded.
Qed.

Lemma generate_wordlist_no_seeds_empty_witness :
  @generate_wordlist elements_iter plural_nltk [] default_options = []
  ∧ @generate_wordlist elements_iter plural_nltk ["   "; "?!-"; ""; " _ "]
      (length_option 12) = [].
Proof.
  split.
  - apply (@generate_wordlist_no_seeds_empty elements_iter plural_nltk). constructor.
  - apply (@generate_wordlist_no_seeds_empty elements_iter plural_nltk).
    repeat (apply Forall_cons_2; [vm_compute; auto|]). apply Forall_nil_2.
Defined.

(** C9: the result of [generate_wordlist] is a function of its arguments
    alone: whatever the order in which the two runs enumerate their sets,
    the same seeds and options (and the same stemmer) give the same
    sequence, element by element. *)
Theorem generate_wordlist_deterministic (I1 I2 : SetIter) `{Nltk} seeds options :
  @generate_wordlist I1 _ seeds options = @generate_wordlist I2 _ seeds options.
Proof.
  unfold generate_wordlist, sorted.
  assert (@final_set I1 _ seeds (max_len_of options)
          = @final_set I2 _ seeds (max_len_of options)) as ->.
  { apply set_eq. intros x.
    by rewrite (@elem_of_final_set I1), (@elem_of_final_set I2). }
  set (filtered := filter _ _).
  apply (Sorted_unique String.le); [apply Sorted_merge_sort, _..|].
  rewrite !merge_sort_Permutation.
  by rewrite (@iter_perm I1), (@iter_perm I2).
Qed.

(** ** Baseline survival *)

(** C3: a seed whose cleaned token is not empty, and whose lowercase form
    has a length between 3 and the supplied [length] (12 when none is
    supplied), has that lowercase form in the output. *)
Theorem generate_wordlist_baseline_survival `{SetIter, Nltk} seeds options seed :
  seed ∈ seeds →
  cleaned_token seed ≠ "" →
  (3 ≤ Str.len (Str.lower (cleaned_token seed)) ≤ supplied_length options)%Z →
  Str.lower (cleaned_token seed) ∈ generate_wordlist seeds options.
Proof.
  intros Hin Hne Hlen. apply lower_token_in_output; [done..|].
  split; [lia|]. by apply supplied_within_max_len.
Qed.

Lemma generate_wordlist_baseline_survival_witness :
  "alice" ∈ @generate_wordlist elements_iter plural_nltk [" Al-ice "; "19/97"] default_options
  ∧ "1997" ∈ @generate_wordlist elements_iter plural_nltk [" Al-ice "; "19/97"] default_options.
Proof.
  split.
  - apply (@generate_wordlist_baseline_survival elements_iter plural_nltk
             [" Al-ice "; "19/97"] default_options " Al-ice ");
      [compute_done|compute_done|vm_compute; split; discriminate].
  - apply (@generate_wordlist_baseline_survival elements_iter plural_nltk
             [" Al-ice "; "19/97"] default_options "19/97");
      [compute_done|compute_done|vm_compute; split; discriminate].
Defined.

(** ** Pattern composition *)

(** C5: for non-empty variants and non-empty numbers, [apply_patterns]
    returns, each once, exactly the strings that some variant [v] yields:
    [v] itself; [v+n], [v+"_"+n], [n+v] for a number [n]; [v+s], [s+v],
    [v+s+s] for a symbol [s]; and, when there are numbers, [v+s+n] and
    [s+v+n].  In particular every variant is in the result. *)
Theorem apply_patterns_exact `{SetIter} words years :
  Forall (λ v, v ≠ "") words →
  Forall (λ n, n ≠ "") years →
  (∀ x, x ∈ apply_patterns words years ↔
     ∃ v, v ∈ words ∧
       (x = v
        ∨ (∃ n, n ∈ years ∧
             (x = v +:+ n ∨ x = v +:+ "_" +:+ n ∨ x = n +:+ v))
        ∨ (∃ s, s ∈ symbols ∧
             (x = v +:+ s ∨ x = s +:+ v ∨ x = v +:+ s +:+ s))
        ∨ (years ≠ [] ∧ ∃ s n, s ∈ symbols ∧ n ∈ years ∧
             (x = v +:+ s +:+ n ∨ x = s +:+ v +:+ n))))
  ∧ NoDup (apply_patterns words years)
  ∧ Forall (λ v, v ∈ apply_patterns words years) words.
Proof.
  intros Hwords Hyears.
  rewrite Forall_forall in Hwords. rewrite Forall_forall in Hyears.
  split_and!.
  - intros x. rewrite elem_of_apply_patterns. unfold pattern_of.
    setoid_rewrite app_assoc_str. split.
    + intros (v & Hv & _ & [->|[(n & Hn & _ & Hx)|(s & Hs & Hx)]]);
        exists v; (split; [done|]).
      * by left.
      * right; left. by exists n.
      * destruct Hx as [Hx|[Hx|[Hx|(n & Hn & Hx)]]].
        -- right; right; left. exists s. auto.
        -- right; right; left. exists s. auto.
        -- right; right; left. exists s. auto.
        -- right; right; right. split; [by intros ->; apply elem_of_nil in Hn|].
           by exists s, n.
    + intros (v & Hv & Hx). exists v. split; [done|]. split; [by apply Hwords|].
      destruct Hx as [->|[(n & Hn & Hx)|[(s & Hs & Hx)|(_ & s & n & Hs & Hn & Hx)]]].
      * by left.
      * right; left. exists n. split_and!; [done|by apply Hyears|done].
      * right; right. exists s. split; [done|]. tauto.
      * right; right. exists s. split; [done|]. do 3 right. by exists n.
  - apply NoDup_iter.
  - apply Forall_forall. intros v Hv. apply elem_of_apply_patterns.
    exists v. split; [done|]. split; [by apply Hwords|by left].
Qed.

Lemma apply_patterns_exact_witness :
  "ab_7" ∈ @apply_patterns elements_iter ["ab"; "Ab"] ["7"; "42"]
  ∧ "@Ab42" ∈ @apply_patterns elements_iter ["ab"; "Ab"] ["7"; "42"]
  ∧ "ab_@" ∉ @apply_patterns elements_iter ["ab"; "Ab"] ["7"; "42"].
Proof.
  destruct (@apply_patterns_exact elements_iter ["ab"; "Ab"] ["7"; "42"])
    as (Hexact & _ & _).
  - repeat (apply Forall_cons_2; [discriminate|]). apply Forall_nil_2.
  - repeat (apply Forall_cons_2; [discriminate|]). apply Forall_nil_2.
  - split_and!.
    + apply Hexact. exists "ab". split; [compute_done|].
      right; left. exists "7". split; [compute_done|]. right; left. reflexivity.
    + apply Hexact. exists "Ab". split; [compute_done|].
      do 3 right. split; [discriminate|]. exists "@", "42".
      split_and!; [compute_done|compute_done|]. right. reflexivity.
    + compute_done.
Defined.

(** ** Leetspeak expansion *)

Lemma app_inj_same_length a1 a2 b1 b2 :
  String.length b1 = String.length b2 →
  a1 +:+ b1 = a2 +:+ b2 → a1 = a2 ∧ b1 = b2.
Proof.
  intros Hlen. revert a2.
  induction a1 as [|c a1 IH]; intros [|d a2]; rewrite ?app_cons_str, ?app_nil_str.
  - done.
  - intros ->. simpl in Hlen. rewrite length_app_str in Hlen. lia.
  - intros <-. simpl in Hlen. rewrite length_app_str in Hlen. lia.
  - intros [= -> [-> ->]%IH]. done.
Qed.

Lemma length_leet_extend variations ch :
  length (leet_extend variations ch)
  = length variations * length (leet_options ch).
Proof.
  unfold leet_extend. induction variations as [|p vs IH]; csimpl; [done|].
  by rewrite length_app, length_fmap, IH.
Qed.

Lemma NoDup_leet_extend variations ch :
  NoDup variations → NoDup (leet_extend variations ch).
Proof.
  intros Hnd. unfold leet_extend. apply NoDup_bind; [| |done].
  - intros p1 p2 y _ _.
    intros (op1 & -> & Hop1)%list_elem_of_fmap (op2 & Heq & Hop2)%list_elem_of_fmap.
    pose proof (leet_options_single ch) as Hsingle. rewrite Forall_forall in Hsingle.
    apply app_inj_same_length in Heq as [? _]; [done|].
    by rewrite (Hsingle op1), (Hsingle op2).
  - intros p _. apply (NoDup_fmap_2 _), leet_options_NoDup.
Qed.

Lemma leet_fold_count cs variations :
  NoDup variations →
  NoDup (foldl leet_extend variations cs)
  ∧ length (foldl leet_extend variations cs)
    = length variations * product (leet_factor <$> cs).
Proof.
  revert variations. induction cs as [|ch cs IH]; intros vs Hnd.
  - simpl. split; [done|lia].
  - rewrite fmap_cons. cbn [foldl].
    destruct (IH (leet_extend vs ch)) as [Hnd' Hlen]; [by apply NoDup_leet_extend|].
    split; [done|].
    rewrite Hlen, length_leet_extend, length_leet_options.
    unfold product. cbn [foldr]. by rewrite Nat.mul_assoc.
Qed.

(** C6: for a non-empty word, the strings [apply_leet] returns are
    pairwise distinct, and their number is the product, over the
    characters of the lowercased word, of the number of options of the
    character: 3 for a, i, s; 2 for e, o, t; 1 for any other. *)
Theorem apply_leet_count `{SetIter} word :
  word ≠ "" →
  NoDup (apply_leet word)
  ∧ length (apply_leet word)
    = product (leet_factor <$> Str.chars (Str.lower word))
  ∧ size (set_of (apply_leet word))
    = product (leet_factor <$> Str.chars (Str.lower word)).
Proof.
  intros Hne. unfold apply_leet. apply truthy_true in Hne as ->.
  destruct (leet_fold_count (Str.chars (Str.lower word)) [""]) as [Hnd Hlen];
    [apply NoDup_singleton|].
  fold (leet_variations word) in Hnd, Hlen. simpl in Hlen. rewrite Nat.add_0_r in Hlen.
  assert (length (iter (set_of (leet_variations word)))
          = product (leet_factor <$> Str.chars (Str.lower word))) as Hcount.
  { rewrite length_iter. unfold set_of. by rewrite size_list_to_set. }
  split_and!; [apply NoDup_iter|done|].
  unfold set_of at 1. rewrite size_list_to_set; [done|apply NoDup_iter].
Qed.

Lemma apply_leet_count_witness :
  length (@apply_leet elements_iter "Pass") = 27
  ∧ length (@apply_leet reversed_iter "toaster") = 144.
Proof.
  split.
  - destruct (@apply_leet_count elements_iter "Pass") as (_ & Hlen & _);
      [discriminate|].
    rewrite Hlen. reflexivity.
  - destruct (@apply_leet_count reversed_iter "toaster") as (_ & Hlen & _);
      [discriminate|].
    rewrite Hlen. reflexivity.
Defined.

(** ** The alphabet of the candidates *)

Lemma all_chars p s : Str.all p s = true ↔ Forall (λ c, p c = true) (Str.chars s).
Proof.
  induction s as [|c s IH]; simpl.
  - split; [constructor|done].
  - rewrite andb_true_iff, IH, Forall_cons. done.
Qed.

Lemma leet_extend_allowed variations ch :
  allowed ch = true →
  Forall (λ v, Str.all allowed v = true) variations →
  Forall (λ v, Str.all allowed v = true) (leet_extend variations ch).
Proof.
  intros Hch Hvs. pose proof (leet_options_allowed ch Hch) as Hops.
  rewrite Forall_forall in Hvs. rewrite Forall_forall in Hops.
  apply Forall_forall. intros x. unfold leet_extend.
  intros (p & (op & -> & Hop)%list_elem_of_fmap & Hp)%list_elem_of_bind.
  by rewrite all_app, Hvs, Hops.
Qed.

Lemma leet_fold_allowed cs variations :
  Forall (λ c, allowed c = true) cs →
  Forall (λ v, Str.all allowed v = true) variations →
  Forall (λ v, Str.all allowed v = true) (foldl leet_extend variations cs).
Proof.
  intros Hcs. revert variations.
  induction Hcs as [|ch cs Hch _ IH]; intros vs Hvs; simpl; [done|].
  by apply IH, leet_extend_allowed.
Qed.

Lemma leet_variations_allowed base x :
  Str.all allowed base = true → x ∈ leet_variations base →
  Str.all allowed x = true.
Proof.
  intros Hbase Hx.
  assert (Forall (λ v, Str.all allowed v = true) (leet_variations base)) as Hall.
  { apply leet_fold_allowed; [|by repeat constructor].
    by apply all_chars, allowed_lower. }
  rewrite Forall_forall in Hall. by apply Hall.
Qed.

Lemma variation_allowed base x :
  Str.all allowed base = true → variation_of base x → Str.all allowed x = true.
Proof.
  intros Hbase [[_ Hx]|[->|[->| ->]]].
  - by eapply leet_variations_allowed.
  - by apply allowed_lower.
  - by apply allowed_capitalize.
  - by apply allowed_upper.
Qed.

Lemma symbols_allowed s : s ∈ symbols → Str.all allowed s = true.
Proof.
  assert (Forall (λ s, Str.all allowed s = true) symbols) as Hall by compute_done.
  rewrite Forall_forall in Hall. apply Hall.
Qed.

Lemma common_suffixes_allowed suf :
  suf ∈ common_suffixes → Str.all allowed suf = true.
Proof.
  assert (Forall (λ s, Str.all allowed s = true) common_suffixes) as Hall
    by compute_done.
  rewrite Forall_forall in Hall. apply Hall.
Qed.

Lemma clean_seeds_alnum seeds t :
  t ∈ (_clean_seeds seeds).1 ∨ t ∈ (_clean_seeds seeds).2 →
  Str.all Str.is_alnum t = true.
Proof.
  rewrite clean_seeds_filter. simpl. rewrite !list_elem_of_filter, !list_elem_of_fmap.
  intros [(_ & seed & -> & _)|(_ & seed & -> & _)]; apply cleaned_token_alnum.
Qed.

Section alphabet.
Context `{SetIter, Nltk}.
Hypothesis stem_allowed :
  ∀ stemmer w, PorterStemmer = Some stemmer → Str.isalpha w = true →
               Str.all allowed (stemmer (Str.lower w)) = true.
Variables clean_words numbers : list string.
Hypothesis words_allowed : ∀ w, w ∈ clean_words → Str.all allowed w = true.
Hypothesis numbers_allowed : ∀ n, n ∈ numbers → Str.all allowed n = true.

Lemma is_variation_allowed x :
  is_variation clean_words x → Str.all allowed x = true.
Proof.
  intros (w & base & Hw & Hbase & Hx). apply (variation_allowed base); [|done].
  apply elem_of_stem_variants in Hbase as [->|(stemmer & Hs & Ha & ->)].
  - by apply words_allowed.
  - by apply (stem_allowed stemmer).
Qed.

Lemma pattern_allowed v x :
  Str.all allowed v = true → pattern_of numbers v x → Str.all allowed x = true.
Proof.
  intros Hv (_ & [->|[(n & Hn%numbers_allowed & _ & Hx)|(s & Hs%symbols_allowed & Hx)]]).
  - done.
  - destruct Hx as [->|[->| ->]]; rewrite !all_app, ?Hv, ?Hn; done.
  - destruct Hx as [->|[->|[->|(n & Hn%numbers_allowed & [->| ->])]]];
      rewrite !all_app, ?Hv, ?Hs, ?Hn; done.
Qed.

Lemma is_base_allowed x :
  is_base clean_words numbers x → Str.all allowed x = true.
Proof.
  intros [(w & num & Hw%is_variation_allowed & Hn%numbers_allowed & [->| ->])
         |[(v & Hv%is_variation_allowed & Hx)|[Hn|Hx]]].
  - by rewrite all_app, Hw, Hn.
  - by rewrite all_app, Hw, Hn.
  - by apply (pattern_allowed v).
  - by apply numbers_allowed.
  - by apply is_variation_allowed.
Qed.

Lemma is_candidate_allowed max_len x :
  is_candidate clean_words numbers max_len x → Str.all allowed x = true.
Proof.
  intros [Hx|(w & suf & Hw%is_base_allowed & Hs%common_suffixes_allowed & -> & _)].
  - by apply is_base_allowed.
  - by rewrite all_app, Hw, Hs.
Qed.

End alphabet.

Lemma final_set_allowed `{SetIter, Nltk} seeds max_len x :
  (∀ stemmer w, PorterStemmer = Some stemmer → Str.isalpha w = true →
                Str.all allowed (stemmer (Str.lower w)) = true) →
  x ∈ final_set seeds max_len → Str.all allowed x = true.
Proof.
  intros Hstem Hx%elem_of_final_set.
  eapply is_candidate_allowed; [done| | |done].
  - intros w Hw. apply alnum_all_allowed, (clean_seeds_alnum seeds). by left.
  - intros n Hn. apply alnum_all_allowed, (clean_seeds_alnum seeds). by right.
Qed.

Lemma allowed_no_space s :
  Str.all allowed s = true → Str.all (λ c, negb (Str.is_space c)) s = true.
Proof.
  apply all_impl. intros c Hc. by rewrite (allowed_not_space c Hc).
Qed.

(** C10: provided the stemmer returns strings over the alphabet (letters,
    digits and the six symbols) on the lowercased alphabetic words it is
    called on, every string [generate_wordlist] returns is over that
    alphabet and holds no whitespace, and every string of [final] whose
    length passes the final check is returned: the whitespace test of the
    final filter excludes nothing. *)
Theorem generate_wordlist_alphabet `{SetIter, Nltk} seeds options :
  (∀ stemmer w, PorterStemmer = Some stemmer → Str.isalpha w = true →
                Str.all allowed (stemmer (Str.lower w)) = true) →
  (∀ w, w ∈ generate_wordlist seeds options →
        Str.all allowed w = true
        ∧ Str.all (λ c, negb (Str.is_space c)) w = true)
  ∧ (∀ w, w ∈ final_set seeds (max_len_of options) →
          (3 ≤ Str.len w ≤ max_len_of options)%Z →
          w ∈ generate_wordlist seeds options).
Proof.
  intros Hstem. split.
  - intros w [Hw _]%elem_of_generate_wordlist.
    apply (final_set_allowed _ _ _ Hstem) in Hw. split; [done|].
    by apply allowed_no_space.
  - intros w Hw Hlen. apply elem_of_generate_wordlist. split; [done|].
    unfold keeps. rewrite !andb_true_iff, negb_true_iff. split_and!.
    + lia.
    + lia.
    + by eapply allowed_not_isspace, final_set_allowed.
Qed.

Lemma alpha_alnum c : Str.is_alpha c = true → Str.is_alnum c = true.
Proof. unfold Str.is_alnum. by intros ->. Qed.

Lemma drop_final_s_all p w :
  Str.all p w = true → Str.all p (drop_final_s w) = true.
Proof.
  induction w as [|c r IH]; [done|]. simpl.
  intros [Hc Hr]%andb_true_iff. destruct r as [|d r'].
  - case_bool_decide; simpl; [done|by rewrite Hc].
  - simpl in IH |- *. by rewrite Hc, IH.
Qed.

Lemma plural_nltk_allowed stemmer w :
  @PorterStemmer plural_nltk = Some stemmer → Str.isalpha w = true →
  Str.all allowed (stemmer (Str.lower w)) = true.
Proof.
  intros [= <-] [_ Ha]%andb_true_iff.
  apply drop_final_s_all, allowed_lower, alnum_all_allowed.
  revert Ha. apply all_impl, alpha_alnum.
Qed.

Lemma generate_wordlist_alphabet_witness :
  Str.all allowed "cats" = true
  ∧ "cats" ∈ @generate_wordlist elements_iter plural_nltk ["Cats"] (length_option 5).
Proof.
  destruct (@generate_wordlist_alphabet elements_iter plural_nltk
              ["Cats"] (length_option 5) plural_nltk_allowed)
    as [Hall Hkept].
  split.
  - apply Hall.
    apply (@lower_token_in_output elements_iter plural_nltk ["Cats"] _ "Cats");
      [compute_done|compute_done|vm_compute; split; discriminate].
  - apply Hkept; [|vm_compute; split; discriminate].
    apply (@lower_token_in_final_set elements_iter plural_nltk ["Cats"] _ "Cats");
      compute_done.
Defined.

(** ** What the result depends on *)

Lemma space_not_alnum c : Str.is_space c = true → Str.is_alnum c = false.
Proof. by_code_point c. Qed.

Lemma keep_lstrip p s :
  (∀ c, Str.is_space c = true → p c = false) →
  Str.keep p (Str.lstrip s) = Str.keep p s.
Proof.
  intros Hp. induction s as [|c s IH]; simpl; [done|].
  destruct (Str.is_space c) eqn:Ec; [|done]. by rewrite (Hp c Ec).
Qed.

Lemma keep_rstrip p s :
  (∀ c, Str.is_space c = true → p c = false) →
  Str.keep p (Str.rstrip s) = Str.keep p s.
Proof.
  intros Hp. induction s as [|c s IH]; simpl; [done|].
  destruct (Str.rstrip s) as [|d r] eqn:Er.
  - simpl in IH. rewrite <- IH. destruct (Str.is_space c) eqn:Ec; simpl.
    + by rewrite (Hp c Ec).
    + by destruct (p c).
  - cbn [Str.keep]. by rewrite <- IH.
Qed.

Lemma cleaned_token_keep seed : cleaned_token seed = Str.re_sub_non_alnum seed.
Proof.
  unfold cleaned_token, Str.re_sub_non_alnum, Str.strip.
  by rewrite keep_rstrip, keep_lstrip by apply space_not_alnum.
Qed.

Lemma generate_wordlist_Sorted `{SetIter, Nltk} seeds options :
  Sorted String.le (generate_wordlist seeds options).
Proof. unfold generate_wordlist, sorted. apply Sorted_merge_sort, _. Qed.

Lemma generate_wordlist_NoDup `{SetIter, Nltk} seeds options :
  NoDup (generate_wordlist seeds options).
Proof.
  unfold generate_wordlist, sorted. rewrite merge_sort_Permutation. apply NoDup_iter.
Qed.

Lemma sorted_lists_eq (l k : list string) :
  Sorted String.le l → Sorted String.le k → NoDup l → NoDup k →
  (∀ x, x ∈ l ↔ x ∈ k) → l = k.
Proof.
  intros Hl Hk Hndl Hndk Hlk.
  apply (Sorted_unique String.le); [done..|]. by apply NoDup_Permutation.
Qed.

Lemma elem_of_clean_words seeds t :
  t ∈ (_clean_seeds seeds).1 ↔
  is_word_token t ∧ ∃ seed, seed ∈ seeds ∧ t = cleaned_token seed.
Proof.
  rewrite clean_seeds_filter. simpl.
  rewrite list_elem_of_filter, list_elem_of_fmap. naive_solver.
Qed.

Lemma elem_of_clean_numbers seeds t :
  t ∈ (_clean_seeds seeds).2 ↔
  is_number_token t ∧ ∃ seed, seed ∈ seeds ∧ t = cleaned_token seed.
Proof.
  rewrite clean_seeds_filter. simpl.
  rewrite list_elem_of_filter, list_elem_of_fmap. naive_solver.
Qed.

Lemma is_variation_mono (N1 N2 : Nltk) cw1 cw2 x :
  (∀ w, w ∈ cw1 → w ∈ cw2) →
  (∀ w base, base ∈ @stem_variants N1 w → base ∈ @stem_variants N2 w) →
  @is_variation N1 cw1 x → @is_variation N2 cw2 x.
Proof.
  intros Hcw Hst (w & base & Hw & Hb & Hx). exists w, base. auto.
Qed.

Lemma pattern_of_mono ys1 ys2 v x :
  (∀ n, n ∈ ys1 → n ∈ ys2) → pattern_of ys1 v x → pattern_of ys2 v x.
Proof. unfold pattern_of. naive_solver. Qed.

Lemma is_base_mono (N1 N2 : Nltk) cw1 cw2 ns1 ns2 x :
  (∀ w, w ∈ cw1 → w ∈ cw2) →
  (∀ n, n ∈ ns1 → n ∈ ns2) →
  (∀ w base, base ∈ @stem_variants N1 w → base ∈ @stem_variants N2 w) →
  @is_base N1 cw1 ns1 x → @is_base N2 cw2 ns2 x.
Proof.
  intros Hcw Hns Hst.
  pose proof (λ y, is_variation_mono N1 N2 cw1 cw2 y Hcw Hst) as Hv.
  intros [(w & num & ? & ? & ?)|[(v & ? & ?)|[?|?]]].
  - left. exists w, num. auto.
  - right; left. exists v. eauto using pattern_of_mono.
  - right; right; left. auto.
  - right; right; right. auto.
Qed.

Lemma is_candidate_mono (N1 N2 : Nltk) cw1 cw2 ns1 ns2 (m1 m2 : Z) x :
  (∀ w, w ∈ cw1 → w ∈ cw2) →
  (∀ n, n ∈ ns1 → n ∈ ns2) →
  (∀ w base, base ∈ @stem_variants N1 w → base ∈ @stem_variants N2 w) →
  (m1 ≤ m2)%Z →
  @is_candidate N1 cw1 ns1 m1 x → @is_candidate N2 cw2 ns2 m2 x.
Proof.
  intros Hcw Hns Hst Hm.
  pose proof (λ y, is_base_mono N1 N2 cw1 cw2 ns1 ns2 y Hcw Hns Hst) as Hb.
  intros [?|(w & suf & ? & ? & ? & ?)].
  - left. auto.
  - right. exists w, suf. split_and!; [auto|done|done|lia].
Qed.

Lemma keeps_mono (m1 m2 : Z) w : (m1 ≤ m2)%Z → keeps m1 w = true → keeps m2 w = true.
Proof. unfold keeps. rewrite !andb_true_iff. intros ? [[? ?] ?]. split_and!; [done|lia|done]. Qed.

(** How the output moves with the seeds, the bound and the stemmer. *)
Lemma generate_wordlist_mono (I1 I2 : SetIter) (N1 N2 : Nltk)
  seeds1 seeds2 options1 options2 w :
  (∀ t, (∃ seed, seed ∈ seeds1 ∧ t = cleaned_token seed) →
        ∃ seed, seed ∈ seeds2 ∧ t = cleaned_token seed) →
  (∀ w base, base ∈ @stem_variants N1 w → base ∈ @stem_variants N2 w) →
  (max_len_of options1 ≤ max_len_of options2)%Z →
  w ∈ @generate_wordlist I1 N1 seeds1 options1 →
  w ∈ @generate_wordlist I2 N2 seeds2 options2.
Proof.
  intros Hseeds Hst Hm [Hw Hk]%elem_of_generate_wordlist.
  apply elem_of_generate_wordlist. split; [|by eapply keeps_mono].
  apply elem_of_final_set in Hw. apply elem_of_final_set.
  revert Hw. apply is_candidate_mono; [| |done|done].
  - intros t [? ?]%elem_of_clean_words. apply elem_of_clean_words. auto.
  - intros t [? ?]%elem_of_clean_numbers. apply elem_of_clean_numbers. auto.
Qed.

(** X1: [_clean_seeds], and with it [generate_wordlist], sees of each seed
    only its letters and digits, in order: two seed lists that agree once
    every other character is removed give the same result.  Stripping is
    subsumed by the removal. *)
Theorem generate_wordlist_alnum_only `{SetIter, Nltk} seeds1 seeds2 options :
  Str.re_sub_non_alnum <$> seeds1 = Str.re_sub_non_alnum <$> seeds2 →
  _clean_seeds seeds1 = _clean_seeds seeds2
  ∧ generate_wordlist seeds1 options = generate_wordlist seeds2 options.
Proof.
  intros Heq.
  assert (_clean_seeds seeds1 = _clean_seeds seeds2) as Hclean.
  { rewrite !clean_seeds_filter.
    assert (cleaned_token <$> seeds1 = cleaned_token <$> seeds2) as ->; [|done].
    erewrite (list_fmap_ext cleaned_token _ seeds1) by (intros; apply cleaned_token_keep).
    erewrite (list_fmap_ext cleaned_token _ seeds2) by (intros; apply cleaned_token_keep).
    done. }
  split; [done|]. unfold generate_wordlist, final_set. by rewrite Hclean.
Qed.

Lemma generate_wordlist_alnum_only_witness :
  @generate_wordlist elements_iter plural_nltk
    ["  a-l.i c e "; "19/97"; "?!"] default_options
  = @generate_wordlist elements_iter plural_nltk ["alice"; "1997"; ""] default_options.
Proof.
  apply (@generate_wordlist_alnum_only elements_iter plural_nltk). reflexivity.
Defined.

(** X2: the order of the seeds and their repetitions do not matter: seed
    lists with the same members give the same result. *)
Theorem generate_wordlist_seed_set `{SetIter, Nltk} seeds1 seeds2 options :
  (∀ seed, seed ∈ seeds1 ↔ seed ∈ seeds2) →
  generate_wordlist seeds1 options = generate_wordlist seeds2 options.
Proof.
  intros Hs.
  apply sorted_lists_eq;
    try apply generate_wordlist_Sorted; try apply generate_wordlist_NoDup.
  intros w. split; apply generate_wordlist_mono; try done.
  - intros t (seed & ?%Hs & ?). eauto.
  - intros t (seed & ?%Hs & ?). eauto.
Qed.

Lemma generate_wordlist_seed_set_witness :
  @generate_wordlist elements_iter no_nltk ["bob"; "7"; "bob"] default_options
  = @generate_wordlist elements_iter no_nltk ["7"; "bob"] default_options.
Proof.
  apply (@generate_wordlist_seed_set elements_iter no_nltk).
  intros seed. rewrite !elem_of_cons, !elem_of_nil. tauto.
Defined.

(** X3: more seeds never cost a candidate: what a seed list yields, every
    list containing its seeds yields too. *)
Theorem generate_wordlist_more_seeds `{SetIter, Nltk} seeds1 seeds2 options w :
  (∀ seed, seed ∈ seeds1 → seed ∈ seeds2) →
  w ∈ generate_wordlist seeds1 options →
  w ∈ generate_wordlist seeds2 options.
Proof.
  intros Hs. apply generate_wordlist_mono; [|done|done].
  intros t (seed & ?%Hs & ?). eauto.
Qed.

Lemma generate_wordlist_more_seeds_witness :
  "bob" ∈ @generate_wordlist elements_iter no_nltk ["1997"; "Bob"; "x"] default_options.
Proof.
  apply (@generate_wordlist_more_seeds elements_iter no_nltk ["Bob"]).
  - intros seed ->%list_elem_of_singleton. compute_done.
  - apply (@lower_token_in_output elements_iter no_nltk ["Bob"] _ "Bob");
      [compute_done|compute_done|vm_compute; split; discriminate].
Defined.

Lemma StronglySorted_filter_le (P : string → Prop) `{∀ x, Decision (P x)} l :
  StronglySorted String.le l → StronglySorted String.le (filter P l).
Proof.
  induction 1 as [|a l Hl IH Ha]; [constructor|].
  destruct (decide (P a)).
  - rewrite filter_cons_True by done. constructor; [done|].
    apply Forall_forall. intros b [_ Hb]%list_elem_of_filter.
    by eapply Forall_forall in Ha.
  - by rewrite filter_cons_False.
Qed.

Lemma is_candidate_shorter `{Nltk} cw ns (m1 m2 : Z) x :
  is_candidate cw ns m2 x → (Str.len x ≤ m1)%Z → is_candidate cw ns m1 x.
Proof.
  intros [?|(w & suf & ? & ? & ? & _)] ?; [by left|].
  right. by exists w, suf.
Qed.

(** X4: lowering the bound only truncates: the result for a bound is the
    result for any larger bound, restricted to the strings that fit. *)
Theorem generate_wordlist_shorter_bound `{SetIter, Nltk} seeds options1 options2 :
  (max_len_of options1 ≤ max_len_of options2)%Z →
  generate_wordlist seeds options1
  = filter (λ w, (Str.len w ≤ max_len_of options1)%Z)
           (generate_wordlist seeds options2).
Proof.
  intros Hm. apply sorted_lists_eq.
  - apply generate_wordlist_Sorted.
  - apply StronglySorted_Sorted, StronglySorted_filter_le.
    apply Sorted_StronglySorted; [apply _|apply generate_wordlist_Sorted].
  - apply generate_wordlist_NoDup.
  - apply NoDup_filter, generate_wordlist_NoDup.
  - intros w. rewrite list_elem_of_filter. split.
    + intros Hw. split.
      * apply elem_of_generate_wordlist in Hw as [_ Hk]. apply keeps_bounds in Hk. lia.
      * revert Hw. by apply generate_wordlist_mono.
    + intros [Hlen [Hw Hk]%elem_of_generate_wordlist].
      apply elem_of_generate_wordlist. split.
      * apply elem_of_final_set. apply elem_of_final_set in Hw.
        by eapply is_candidate_shorter.
      * apply keeps_bounds in Hk as Hb. revert Hk. unfold keeps.
        rewrite !andb_true_iff. intros [[? _] ?]. split_and!; [done|lia|done].
Qed.

Lemma generate_wordlist_shorter_bound_witness :
  @generate_wordlist elements_iter no_nltk ["bob"; "7"] (length_option 4)
  = filter (λ w, (Str.len w ≤ 4)%Z)
      (@generate_wordlist elements_iter no_nltk ["bob"; "7"] (length_option 0)).
Proof.
  apply (@generate_wordlist_shorter_bound elements_iter no_nltk ["bob"; "7"]
           (length_option 4) (length_option 0)).
  vm_compute. discriminate.
Defined.

(** X5: stemming only adds: whatever the stemmer, every candidate of a run
    without NLTK is a candidate of the run with it. *)
Theorem stemming_only_adds `{SetIter} (N : Nltk) seeds options w :
  w ∈ @generate_wordlist _ no_nltk seeds options →
  w ∈ @generate_wordlist _ N seeds options.
Proof.
  apply generate_wordlist_mono; [done| |done].
  intros t base ->%elem_of_singleton. apply self_in_stem_variants.
Qed.

Lemma stemming_only_adds_witness :
  "cats" ∈ @generate_wordlist elements_iter plural_nltk ["Cats"] default_options.
Proof.
  apply (@stemming_only_adds elements_iter plural_nltk).
  apply (@lower_token_in_output elements_iter no_nltk ["Cats"] _ "Cats");
    [compute_done|compute_done|vm_compute; split; discriminate].
Defined.

(** ** More on the leetspeak expansion *)

Lemma length_chars s : length (Str.chars s) = String.length s.
Proof. induction s; simpl; [done|]. by f_equal. Qed.

Lemma length_map_str f s : String.length (Str.map f s) = String.length s.
Proof. induction s; simpl; [done|]. by f_equal. Qed.

Lemma leet_fold_length cs variations n :
  Forall (λ v, String.length v = n) variations →
  Forall (λ v, String.length v = n + length cs) (foldl leet_extend variations cs).
Proof.
  revert variations n. induction cs as [|ch cs IH]; intros vs n Hvs; simpl.
  - by rewrite Nat.add_0_r.
  - replace (n + S (length cs)) with (S n + length cs) by lia. apply IH.
    pose proof (leet_options_single ch) as Hone.
    rewrite Forall_forall in Hvs. rewrite Forall_forall in Hone.
    apply Forall_forall. intros x. unfold leet_extend.
    intros (p & (op & -> & Hop)%list_elem_of_fmap & Hp)%list_elem_of_bind.
    rewrite length_app_str, (Hvs p Hp), (Hone op Hop). lia.
Qed.

Lemma leet_options_self ch : String ch "" ∈ leet_options ch.
Proof. decide_by_code_point ch. Qed.

Lemma leet_fold_identity s variations p :
  p ∈ variations → p +:+ s ∈ foldl leet_extend variations (Str.chars s).
Proof.
  revert variations p. induction s as [|c s IH]; intros vs p Hp; simpl.
  - assert (p +:+ "" = p) as ->; [|done].
    clear. induction p; rewrite ?app_cons_str; [done|]. by f_equal.
  - assert (p +:+ String c s = (p +:+ String c "") +:+ s) as ->.
    { by rewrite app_assoc_str. }
    apply IH. unfold leet_extend. apply list_elem_of_bind. exists p. split; [|done].
    apply list_elem_of_fmap_2, leet_options_self.
Qed.

(** X6: a leetspeak variant has the length of the lowercased word:
    substitutions are character for character.  For an ASCII word,
    which lowercasing leaves at its length, that is the length of the
    word itself. *)
Theorem apply_leet_same_length `{SetIter} word x :
  x ∈ apply_leet word →
  String.length x = String.length (Str.lower word)
  ∧ (ascii_text word → String.length x = String.length word).
Proof.
  intros [_ Hx]%elem_of_apply_leet.
  assert (Forall (λ v, String.length v = 0 + length (Str.chars (Str.lower word)))
            (leet_variations word)) as Hall.
  { apply leet_fold_length. by apply Forall_singleton. }
  rewrite Forall_forall in Hall. apply Hall in Hx.
  rewrite length_chars in Hx. split; [done|].
  intros _. rewrite Hx. apply length_map_str.
Qed.

Lemma apply_leet_same_length_witness :
  String.length "p@$5" = String.length (Str.lower "PASS")
  ∧ String.length "p@$5" = String.length "PASS".
Proof.
  destruct (@apply_leet_same_length elements_iter "PASS" "p@$5") as [Hlower Hword];
    [compute_done|].
  split; [exact Hlower|]. apply Hword. reflexivity.
Defined.

(** X7: the lowercased word is always among its own leetspeak variants. *)
Theorem apply_leet_has_lower `{SetIter} word :
  word ≠ "" → Str.lower word ∈ apply_leet word.
Proof.
  intros Hne. apply elem_of_apply_leet. split; [done|].
  apply (leet_fold_identity (Str.lower word) [""] ""). by apply list_elem_of_singleton.
Qed.

Lemma apply_leet_has_lower_witness : "toaster" ∈ @apply_leet reversed_iter "ToAsTeR".
Proof. apply (@apply_leet_has_lower reversed_iter "ToAsTeR"). discriminate. Defined.

Lemma product_leet_factor cs :
  1 ≤ product (leet_factor <$> cs) ≤ 3 ^ length cs.
Proof.
  induction cs as [|ch cs IH]; [simpl; lia|].
  rewrite fmap_cons. unfold product in *. cbn [foldr length].
  assert (1 ≤ leet_factor ch ≤ 3) as Hch.
  { rewrite <- length_leet_options.
    destruct ch as [[] [] [] [] [] [] [] []]; vm_compute; lia. }
  rewrite Nat.pow_succ_r'. nia.
Qed.

(** X8: for a non-empty word of [n] characters [apply_leet] returns at
    least one and at most [3 ^ n] strings. *)
Theorem apply_leet_at_most `{SetIter} word :
  word ≠ "" →
  1 ≤ length (apply_leet word) ≤ 3 ^ String.length word.
Proof.
  intros Hne. unfold apply_leet. apply truthy_true in Hne as ->.
  destruct (leet_fold_count (Str.chars (Str.lower word)) [""]) as [Hnd Hlen];
    [apply NoDup_singleton|].
  fold (leet_variations word) in Hnd, Hlen. simpl in Hlen. rewrite Nat.add_0_r in Hlen.
  rewrite length_iter. unfold set_of. rewrite size_list_to_set, Hlen by done.
  pose proof (product_leet_factor (Str.chars (Str.lower word))) as Hp.
  rewrite length_chars in Hp. unfold Str.lower in Hp.
  by rewrite length_map_str in Hp.
Qed.

Lemma apply_leet_at_most_witness :
  1 ≤ length (@apply_leet elements_iter "sassiest") ≤ 3 ^ 8.
Proof. apply (@apply_leet_at_most elements_iter "sassiest"). discriminate. Defined.

(** ** What the seeds are sure to yield *)

Lemma leet_variations_length t v :
  v ∈ leet_variations t → String.length v = String.length t.
Proof.
  intros Hv.
  assert (Forall (λ v, String.length v = 0 + length (Str.chars (Str.lower t)))
            (leet_variations t)) as Hall.
  { apply leet_fold_length. by apply Forall_singleton. }
  rewrite Forall_forall in Hall. apply Hall in Hv.
  rewrite Hv, length_chars. apply length_map_str.
Qed.

Lemma variation_length t v :
  variation_of t v → String.length v = String.length t.
Proof.
  intros [[_ Hv]|[->|[->| ->]]].
  - by apply leet_variations_length.
  - apply length_map_str.
  - destruct t; simpl; [done|]. f_equal. apply length_map_str.
  - apply length_map_str.
Qed.

Lemma variation_nonempty t v : t ≠ "" → variation_of t v → v ≠ "".
Proof.
  intros Ht Hv%variation_length ->. destruct t; [done|]. simpl in Hv. lia.
Qed.

Section survival.
Context `{SetIter, Nltk}.
Variables (seeds : list string) (options : Options).

Lemma base_in_output x :
  is_base (_clean_seeds seeds).1 (_clean_seeds seeds).2 x →
  Str.all allowed x = true →
  (3 ≤ Str.len x ≤ max_len_of options)%Z →
  x ∈ generate_wordlist seeds options.
Proof.
  intros Hb Ha Hlen. apply elem_of_generate_wordlist. split.
  - apply elem_of_final_set. by left.
  - unfold keeps. rewrite !andb_true_iff, negb_true_iff. split_and!; [lia|lia|].
    by apply allowed_not_isspace.
Qed.

Lemma suffixed_in_output w suf :
  is_base (_clean_seeds seeds).1 (_clean_seeds seeds).2 w →
  suf ∈ common_suffixes →
  Str.all allowed w = true →
  (3 ≤ Str.len (w +:+ suf) ≤ max_len_of options)%Z →
  w +:+ suf ∈ generate_wordlist seeds options.
Proof.
  intros Hb Hs Ha Hlen. apply elem_of_generate_wordlist. split.
  - apply elem_of_final_set. right. exists w, suf. split_and!; [done|done|done|lia].
  - unfold keeps. rewrite !andb_true_iff, negb_true_iff. split_and!; [lia|lia|].
    apply allowed_not_isspace. by rewrite all_app, Ha, common_suffixes_allowed.
Qed.

Lemma word_seed_variation sw v :
  sw ∈ seeds → is_word_token (cleaned_token sw) →
  variation_of (cleaned_token sw) v →
  is_variation (_clean_seeds seeds).1 v ∧ Str.all allowed v = true ∧ v ≠ "".
Proof.
  intros Hin Hw Hv. split_and!.
  - exists (cleaned_token sw), (cleaned_token sw). split_and!; [|apply self_in_stem_variants|done].
    apply elem_of_clean_words. eauto.
  - eapply variation_allowed; [|done]. apply alnum_all_allowed, cleaned_token_alnum.
  - eapply variation_nonempty; [|done]. by destruct Hw.
Qed.

Lemma number_seed_token sn :
  sn ∈ seeds → is_number_token (cleaned_token sn) →
  cleaned_token sn ∈ (_clean_seeds seeds).2
  ∧ Str.all allowed (cleaned_token sn) = true ∧ cleaned_token sn ≠ "".
Proof.
  intros Hin Hn. split_and!.
  - apply elem_of_clean_numbers. eauto.
  - apply alnum_all_allowed, cleaned_token_alnum.
  - by destruct Hn.
Qed.

End survival.

(** X9: every variant of a word seed (the three case forms and the
    leetspeak variants of its cleaned token) is in the output as soon as
    its length is within the bounds. *)
Theorem word_variants_survive `{SetIter, Nltk} seeds options sw v :
  sw ∈ seeds →
  is_word_token (cleaned_token sw) →
  variation_of (cleaned_token sw) v →
  (3 ≤ Str.len v ≤ max_len_of options)%Z →
  v ∈ generate_wordlist seeds options.
Proof.
  intros Hin Hw Hv Hlen.
  destruct (word_seed_variation seeds sw v Hin Hw Hv) as (Hvar & Ha & _).
  apply base_in_output; [|done|done]. by do 3 right.
Qed.

Lemma word_variants_survive_witness :
  "T0BY" ∈ @generate_wordlist elements_iter no_nltk [" t0by!"] default_options
  ∧ "70by" ∈ @generate_wordlist elements_iter no_nltk [" t0by!"] default_options.
Proof.
  split.
  - apply (@word_variants_survive elements_iter no_nltk _ _ " t0by!");
      [compute_done|split; [discriminate|vm_compute; discriminate]
      |do 3 right; reflexivity|vm_compute; split; discriminate].
  - apply (@word_variants_survive elements_iter no_nltk _ _ " t0by!");
      [compute_done|split; [discriminate|vm_compute; discriminate]
      |left; split; [discriminate|compute_done]|vm_compute; split; discriminate].
Defined.

(** X10: a variant of a word seed decorated with a symbol, in front,
    behind or doubled behind, is in the output as soon as its length is
    within the bounds, with or without number seeds. *)
Theorem symbol_decorations_survive `{SetIter, Nltk} seeds options sw v s x :
  sw ∈ seeds →
  is_word_token (cleaned_token sw) →
  variation_of (cleaned_token sw) v →
  s ∈ symbols →
  x ∈ [v +:+ s; s +:+ v; v +:+ s +:+ s] →
  (3 ≤ Str.len x ≤ max_len_of options)%Z →
  x ∈ generate_wordlist seeds options.
Proof.
  intros Hin Hw Hv Hs Hx Hlen.
  destruct (word_seed_variation seeds sw v Hin Hw Hv) as (Hvar & Ha & Hne).
  pose proof (symbols_allowed s Hs) as Hsa.
  apply base_in_output; [| |done].
  - right; left. exists v. split; [done|]. split; [done|].
    right; right. exists s. split; [done|].
    rewrite !elem_of_cons, elem_of_nil in Hx. tauto.
  - rewrite !elem_of_cons, elem_of_nil in Hx.
    destruct Hx as [->|[->|[->|[]]]]; by rewrite !all_app, ?Ha, ?Hsa.
Qed.

Lemma symbol_decorations_survive_witness :
  "Bo$$" ∈ @generate_wordlist elements_iter no_nltk ["bo"] (length_option 4).
Proof.
  apply (@symbol_decorations_survive elements_iter no_nltk _ _ "bo" "Bo" "$");
    [compute_done|split; [discriminate|vm_compute; discriminate]
    |right; right; left; reflexivity|compute_done|compute_done
    |vm_compute; split; discriminate].
Defined.

(** X11: a variant of a word seed combined with the token of a number
    seed (number behind, in front, behind an underscore, or behind with a
    symbol between or in front) is in the output as soon as its length is
    within the bounds. *)
Theorem number_combinations_survive `{SetIter, Nltk} seeds options sw sn v s x :
  sw ∈ seeds →
  is_word_token (cleaned_token sw) →
  variation_of (cleaned_token sw) v →
  sn ∈ seeds →
  is_number_token (cleaned_token sn) →
  s ∈ symbols →
  x ∈ [v +:+ cleaned_token sn; cleaned_token sn +:+ v;
       v +:+ "_" +:+ cleaned_token sn;
       v +:+ s +:+ cleaned_token sn; s +:+ v +:+ cleaned_token sn] →
  (3 ≤ Str.len x ≤ max_len_of options)%Z →
  x ∈ generate_wordlist seeds options.
Proof.
  intros Hin Hw Hv Hinn Hn Hs Hx Hlen.
  destruct (word_seed_variation seeds sw v Hin Hw Hv) as (Hvar & Ha & Hne).
  destruct (number_seed_token seeds sn Hinn Hn) as (Hnum & Hna & Hnne).
  pose proof (symbols_allowed s Hs) as Hsa.
  set (n := cleaned_token sn) in *.
  rewrite !elem_of_cons, elem_of_nil in Hx.
  apply base_in_output; [| |done].
  - right; left. exists v. split; [done|]. split; [done|].
    destruct Hx as [->|[->|[->|[->|[->|[]]]]]].
    + right; left. exists n. auto.
    + right; left. exists n. auto.
    + right; left. exists n. split_and!; [done..|]. right; left.
      by rewrite app_assoc_str.
    + right; right. exists s. split; [done|]. do 3 right. exists n.
      split; [done|]. left. by rewrite app_assoc_str.
    + right; right. exists s. split; [done|]. do 3 right. exists n.
      split; [done|]. right. by rewrite app_assoc_str.
  - destruct Hx as [->|[->|[->|[->|[->|[]]]]]];
      by rewrite !all_app, ?Ha, ?Hsa, ?Hna.
Qed.

Lemma number_combinations_survive_witness :
  "t0by_1997" ∈ @generate_wordlist elements_iter no_nltk ["Toby"; "19-97"] default_options
  ∧ "#TOBY1997" ∈ @generate_wordlist elements_iter no_nltk ["Toby"; "19-97"] default_options.
Proof.
  split.
  - apply (@number_combinations_survive elements_iter no_nltk _ _
             "Toby" "19-97" "t0by" "!");
      [compute_done|split; [discriminate|vm_compute; discriminate]
      |left; split; [discriminate|compute_done]
      |compute_done|split; [discriminate|reflexivity]|compute_done|compute_done
      |vm_compute; split; discriminate].
  - apply (@number_combinations_survive elements_iter no_nltk _ _
             "Toby" "19-97" "TOBY" "#");
      [compute_done|split; [discriminate|vm_compute; discriminate]
      |do 3 right; reflexivity
      |compute_done|split; [discriminate|reflexivity]|compute_done|compute_done
      |vm_compute; split; discriminate].
Defined.

(** X12: a variant of a word seed, or the token of a number seed,
    followed by one of the common suffixes is in the output as soon as the
    suffixed string is within the bounds, even when the token alone is
    shorter than 3. *)
Theorem suffixed_tokens_survive `{SetIter, Nltk} seeds options seed b suf :
  seed ∈ seeds →
  (is_word_token (cleaned_token seed) ∧ variation_of (cleaned_token seed) b)
  ∨ (is_number_token (cleaned_token seed) ∧ b = cleaned_token seed) →
  suf ∈ common_suffixes →
  (3 ≤ Str.len (b +:+ suf) ≤ max_len_of options)%Z →
  b +:+ suf ∈ generate_wordlist seeds options.
Proof.
  intros Hin [[Hw Hv]|[Hn ->]] Hs Hlen.
  - destruct (word_seed_variation seeds seed b Hin Hw Hv) as (Hvar & Ha & _).
    apply suffixed_in_output; [|done..]. by do 3 right.
  - destruct (number_seed_token seeds seed Hin Hn) as (Hnum & Ha & _).
    apply suffixed_in_output; [|done..]. by right; right; left.
Qed.

Lemma suffixed_tokens_survive_witness :
  "7007" ∈ @generate_wordlist elements_iter no_nltk ["7"] default_options
  ∧ "AB123" ∈ @generate_wordlist elements_iter no_nltk ["ab"] default_options.
Proof.
  split.
  - apply (@suffixed_tokens_survive elements_iter no_nltk _ _ "7" "7" "007");
      [compute_done|right; split; [split; [discriminate|reflexivity]|reflexivity]
      |compute_done|vm_compute; split; discriminate].
  - apply (@suffixed_tokens_survive elements_iter no_nltk _ _ "ab" "AB" "123");
      [compute_done
      |left; split; [split; [discriminate|vm_compute; discriminate]
                    |do 3 right; reflexivity]
      |compute_done|vm_compute; split; discriminate].
Defined.

(** X13: when no seed cleans to a word, numbers are neither decorated nor
    combined: every candidate is the token of a number seed, alone or
    followed by one common suffix. *)
Theorem numbers_only_candidates `{SetIter, Nltk} seeds options w :
  (∀ seed, seed ∈ seeds → ¬ is_word_token (cleaned_token seed)) →
  w ∈ generate_wordlist seeds options →
  ∃ seed, seed ∈ seeds ∧ is_number_token (cleaned_token seed)
          ∧ (w = cleaned_token seed
             ∨ ∃ suf, suf ∈ common_suffixes ∧ w = cleaned_token seed +:+ suf).
Proof.
  intros Hnow [Hw _]%elem_of_generate_wordlist. apply elem_of_final_set in Hw.
  assert (∀ y, ¬ is_variation (_clean_seeds seeds).1 y) as Hv.
  { intros y (t & base & (Ht & seed & Hseed & ->)%elem_of_clean_words & _).
    by apply (Hnow seed). }
  assert (∀ y, is_base (_clean_seeds seeds).1 (_clean_seeds seeds).2 y →
               ∃ seed, seed ∈ seeds ∧ is_number_token (cleaned_token seed)
                       ∧ y = cleaned_token seed) as Hb.
  { intros y [(v & num & ?%Hv & _)|[(v & ?%Hv & _)|[Hn|?%Hv]]]; try done.
    apply elem_of_clean_numbers in Hn as (Hn & seed & Hseed & ->). eauto. }
  destruct Hw as [(seed & ? & ? & ->)%Hb|(b & suf & (seed & ? & ? & ->)%Hb & ? & -> & _)].
  - exists seed. auto.
  - exists seed. split_and!; [done..|]. right. by exists suf.
Qed.

Lemma numbers_only_candidates_witness :
  ∃ seed, seed ∈ ["19-97"; " 7 "]
          ∧ is_number_token (cleaned_token seed)
          ∧ ("1997" = cleaned_token seed
             ∨ ∃ suf, suf ∈ common_suffixes ∧ "1997" = cleaned_token seed +:+ suf).
Proof.
  apply (@numbers_only_candidates elements_iter no_nltk ["19-97"; " 7 "]
           default_options "1997").
  - intros seed. rewrite !elem_of_cons, elem_of_nil.
    intros [->|[->|[]]] [_ Hd]; by apply Hd.
  - apply (@lower_token_in_output elements_iter no_nltk _ _ "19-97");
      [compute_done|compute_done|vm_compute; split; discriminate].
Defined.

(** ** How large the sets can grow *)

Lemma size_set_add x (s : gset string) : size (set_add x s) ≤ size s + 1.
Proof.
  unfold set_add. rewrite size_union_alt, size_singleton.
  assert (size (s ∖ {[x]}) ≤ size s) by (apply subseteq_size; set_solver). lia.
Qed.

(** Bounds the size of every [set_add] tower in sight. *)
Ltac bound_set_adds :=
  repeat match goal with
  | |- context [size (set_add ?x ?s)] =>
      pose proof (size_set_add x s);
      generalize dependent (size (set_add x s)); intros
  | H : context [size (set_add ?x ?s)] |- _ =>
      pose proof (size_set_add x s);
      generalize dependent (size (set_add x s)); intros
  end.

Lemma size_union_le (X Y : gset string) : size (X ∪ Y) ≤ size X + size Y.
Proof.
  rewrite size_union_alt.
  assert (size (Y ∖ X) ≤ size Y) by (apply subseteq_size; set_solver). lia.
Qed.

Lemma size_set_of_le (l : list string) : size (set_of l) ≤ length l.
Proof.
  unfold set_of. induction l as [|a l IH].
  - change (size (∅ : gset string) ≤ 0). by rewrite size_empty.
  - rewrite list_to_set_cons. cbn [length].
    etrans; [apply size_union_le|]. rewrite size_singleton. lia.
Qed.

Lemma size_foldl_le {A} (f : gset string → A → gset string) (k : nat) :
  (∀ s a, size (f s a) ≤ size s + k) →
  ∀ l s, size (foldl f s l) ≤ size s + k * length l.
Proof.
  intros Hf l. induction l as [|a l IH]; intros s; simpl; [lia|].
  specialize (IH (f s a)). specialize (Hf s a). lia.
Qed.

Lemma size_year_patterns word final y :
  size (year_patterns word final y) ≤ size final + 3.
Proof.
  unfold year_patterns. destruct (Str.truthy y); [|lia].
  bound_set_adds. lia.
Qed.

Lemma size_symbol_year_patterns word sym final y :
  size (symbol_year_patterns word sym final y) ≤ size final + 2.
Proof.
  unfold symbol_year_patterns. bound_set_adds. lia.
Qed.

Lemma size_symbol_patterns word years final sym :
  size (symbol_patterns word years final sym) ≤ size final + (3 + 2 * length years).
Proof.
  unfold symbol_patterns.
  destruct years as [|y years]; [simpl; bound_set_adds; lia|].
  etrans; [apply (size_foldl_le _ 2), size_symbol_year_patterns|].
  bound_set_adds. lia.
Qed.

Lemma size_word_patterns years final word :
  size (word_patterns years final word) ≤ size final + (19 + 15 * length years).
Proof.
  unfold word_patterns. destruct (Str.truthy word); [|lia].
  etrans; [apply (size_foldl_le _ (3 + 2 * length years)), size_symbol_patterns|].
  etrans; [apply Nat.add_le_mono_r, (size_foldl_le _ 3), size_year_patterns|].
  pose proof (size_set_add word final). simpl. lia.
Qed.

Lemma size_patterns_set words years :
  size (patterns_set words years) ≤ length words * (19 + 15 * length years).
Proof.
  unfold patterns_set.
  etrans; [apply (size_foldl_le _ (19 + 15 * length years)), size_word_patterns|].
  rewrite size_empty. lia.
Qed.

(** X14: [apply_patterns] returns at most [19 + 15 * |years|] strings per
    word, whatever the words and the years. *)
Theorem apply_patterns_at_most `{SetIter} words years :
  length (apply_patterns words years)
  ≤ length words * (19 + 15 * length years).
Proof.
  unfold apply_patterns. rewrite length_iter. apply size_patterns_set.
Qed.

Lemma size_number_combos words numbers final :
  size (number_combos words numbers final)
  ≤ size final + 2 * length numbers * length words.
Proof.
  unfold number_combos. apply (size_foldl_le _ (2 * length numbers)).
  intros s w. apply (size_foldl_le _ 2). intros s' num.
  bound_set_adds. lia.
Qed.

Lemma size_add_each l final : size (add_each l final) ≤ size final + length l.
Proof.
  unfold add_each. etrans; [apply (size_foldl_le _ 1)|lia].
  intros. apply size_set_add.
Qed.

Lemma size_suffix_round max_len final w :
  size (suffix_round max_len final w) ≤ size final + 4.
Proof.
  assert (suffix_round max_len final w
          ⊆ final ∪ list_to_set ((λ suf, w +:+ suf) <$> ["123"; "!"; "99"; "007"]))
    as Hsub.
  { intros x. rewrite elem_of_suffix_round, elem_of_union, elem_of_list_to_set.
    intros [?|(suf & Hsuf & -> & _)]; [by left|right].
    apply list_elem_of_fmap_2. revert Hsuf. unfold common_suffixes.
    rewrite !elem_of_cons, !elem_of_nil. tauto. }
  apply subseteq_size in Hsub. etrans; [done|].
  etrans; [apply size_union_le|]. apply Nat.add_le_mono_l.
  etrans; [apply size_set_of_le|]. done.
Qed.

Lemma size_add_suffixes `{SetIter} max_len final :
  size (add_suffixes max_len final) ≤ 5 * size final.
Proof.
  unfold add_suffixes.
  etrans; [apply (size_foldl_le _ 4), size_suffix_round|].
  rewrite length_iter. lia.
Qed.

(** X15: the size of the result is bounded by the number [V] of word
    variations and the number [N] of number tokens: at most
    [5 * (V * (20 + 17 * N) + N)] candidates. *)
Theorem generate_wordlist_at_most `{SetIter, Nltk} seeds options :
  length (generate_wordlist seeds options)
  ≤ 5 * (length (word_variations (_clean_seeds seeds).1)
           * (20 + 17 * length (_clean_seeds seeds).2)
         + length (_clean_seeds seeds).2).
Proof.
  unfold generate_wordlist, sorted. rewrite merge_sort_Permutation, length_iter.
  etrans; [apply subseteq_size; intros x [_ ?]%elem_of_filter; done|].
  unfold final_set. destruct (_clean_seeds seeds) as [clean_words numbers].
  cbn [fst snd].
  set (wv := word_variations clean_words).
  set (patterned := apply_patterns wv numbers).
  set (final0 := number_combos wv numbers ∅).
  set (final1 := add_each patterned final0).
  set (final2 := add_each numbers final1).
  set (final3 := add_each wv final2).
  pose proof (size_add_suffixes (max_len_of options) final3) as H4.
  pose proof (size_add_each wv final2) as H3. fold final3 in H3.
  pose proof (size_add_each numbers final1) as H2. fold final2 in H2.
  pose proof (size_add_each patterned final0) as H1. fold final1 in H1.
  pose proof (size_number_combos wv numbers ∅) as H0'. fold final0 in H0'.
  rewrite size_empty in H0'.
  pose proof (size_patterns_set wv numbers) as Hp.
  rewrite <- (length_iter (patterns_set wv numbers)) in Hp.
  fold (apply_patterns wv numbers) in Hp. fold patterned in Hp.
  nia.
Qed.

(** ** Stemming *)

Lemma iter_singleton `{SetIter} (w : string) : iter {[ w ]} = [w].
Proof.
  apply Permutation_singleton_r. by rewrite (iter_perm {[ w ]}), elements_singleton.
Qed.

Lemma size_stem_variants `{Nltk} w : 1 ≤ size (stem_variants w) ≤ 2.
Proof.
  unfold stem_variants. destruct PorterStemmer as [stemmer|];
    [|rewrite size_singleton; lia].
  destruct (Str.isalpha w); [|rewrite size_singleton; lia].
  destruct (_ && _); [|rewrite size_singleton; lia].
  pose proof (size_set_add (stemmer (Str.lower w)) {[ w ]}) as Hle.
  rewrite size_singleton in Hle. split; [|done].
  assert (size ({[ w ]} : gset string)
          ≤ size (set_add (stemmer (Str.lower w)) {[ w ]})) as Hge.
  { apply subseteq_size. intros x Hx. apply elem_of_set_add. by right. }
  by rewrite size_singleton in Hge.
Qed.

(** X16: [_stem_word] returns the word itself and at most one stem, without
    repetition; without NLTK, or for a word that is not purely alphabetic,
    it returns the word alone. *)
Theorem stem_word_shape `{SetIter, Nltk} word :
  word ∈ _stem_word word
  ∧ NoDup (_stem_word word)
  ∧ 1 ≤ length (_stem_word word) ≤ 2
  ∧ (PorterStemmer = None ∨ Str.isalpha word = false → _stem_word word = [word]).
Proof.
  unfold _stem_word. split_and!.
  - apply elem_of_iter, self_in_stem_variants.
  - apply NoDup_iter.
  - rewrite length_iter. apply size_stem_variants.
  - rewrite length_iter. apply size_stem_variants.
  - intros Hno. assert (stem_variants word = {[ word ]}) as ->; [|apply iter_singleton].
    unfold stem_variants. destruct Hno as [->| Ha]; [done|].
    destruct PorterStemmer; [|done]. by rewrite Ha.
Qed.

(** ** The growth of the variations *)

Lemma length_apply_leet_le `{SetIter} base :
  length (apply_leet base) ≤ 3 ^ String.length base.
Proof.
  destruct (decide (base = "")) as [->|Hne]; [simpl; lia|].
  unfold apply_leet. apply truthy_true in Hne as ->.
  destruct (leet_fold_count (Str.chars (Str.lower base)) [""]) as [Hnd Hlen];
    [apply NoDup_singleton|].
  fold (leet_variations base) in Hnd, Hlen. simpl in Hlen. rewrite Nat.add_0_r in Hlen.
  rewrite length_iter. unfold set_of. rewrite size_list_to_set, Hlen by done.
  pose proof (product_leet_factor (Str.chars (Str.lower base))) as Hp.
  rewrite length_chars in Hp. unfold Str.lower in Hp.
  rewrite length_map_str in Hp. apply Hp.
Qed.

(** X17: without NLTK, a cleaned word of [n] characters contributes at most
    [3 ^ n + 3] variations: the deduplicated [word_variations] hold at most
    the sum of these budgets. *)
Theorem word_variations_at_most `{SetIter} clean_words :
  length (@word_variations _ no_nltk clean_words)
  ≤ sum_list (variations_budget <$> clean_words).
Proof.
  unfold word_variations. rewrite length_iter.
  etrans; [apply size_set_of_le|]. unfold collect_variations.
  assert (∀ acc, length (foldl (λ acc w, foldl base_variations acc (@_stem_word _ no_nltk w))
                           acc clean_words)
                 ≤ length acc + sum_list (variations_budget <$> clean_words)) as Hfold.
  { induction clean_words as [|w ws IH]; intros acc; [simpl; lia|].
    rewrite fmap_cons. cbn [foldl sum_list sum_list_with]. etrans; [apply IH|].
    unfold _stem_word, stem_variants, no_nltk, PorterStemmer. rewrite iter_singleton.
    cbn [foldl]. unfold base_variations. rewrite !length_app.
    pose proof (length_apply_leet_le w). unfold variations_budget.
    cbn [length id]. lia. }
  specialize (Hfold []). simpl in Hfold. done.
Qed.

Example split_examples :
  split "," "" = [""] ∧ split "," "a,,b," = ["a"; ""; "b"; ""]
  ∧ parse_seeds " alice , ,1997,,bob" = ["alice"; "1997"; "bob"].
Proof. by split_and!. Qed.

Example file_lines_example :
  file_lines (String "a" (String CR (String LF (String "b" (String CR (String "c" ""))))))
  = [String "a" (String LF ""); String "b" (String LF ""); "c"].
Proof. reflexivity. Qed.

Example collect_seeds_example :
  collect_seeds {| arg_from_file := None; arg_seeds := Some "toby, rex";
                   arg_name := Some "alice"; arg_pet := Some "";
                   arg_year := Some (-1997)%Z; arg_length := 12;
                   arg_rules := ""; arg_out := "wordlist.txt" |}
  = ["toby"; "rex"; "alice"; "-1997"].
Proof. reflexivity. Qed.

(** ** Writing a word list and reading it back *)

Lemma app_empty_str s : s +:+ "" = s.
Proof. induction s; rewrite ?app_cons_str; [done|]. by f_equal. Qed.

Lemma write_lines_from text lines :
  foldl (λ text line, text +:+ (line +:+ String LF "")) text lines
  = text +:+ write_lines lines.
Proof.
  unfold write_lines. revert text.
  induction lines as [|ln lns IH]; intros text; simpl.
  - by rewrite app_empty_str.
  - rewrite IH, (IH ("" +:+ _)). by rewrite app_nil_str, app_assoc_str.
Qed.

Lemma write_lines_cons ln lns :
  write_lines (ln :: lns) = (ln +:+ String LF "") +:+ write_lines lns.
Proof. unfold write_lines at 1. simpl. by rewrite write_lines_from, app_nil_str. Qed.

Lemma no_space_cons c s :
  no_space (String c s) ↔ Str.is_space c = false ∧ no_space s.
Proof.
  unfold no_space. simpl. rewrite andb_true_iff, negb_true_iff. done.
Qed.

Lemma universal_newlines_line w rest :
  no_space w →
  universal_newlines ((w +:+ String LF "") +:+ rest)
  = (w +:+ String LF "") +:+ universal_newlines rest.
Proof.
  induction w as [|c w IH]; [done|].
  intros [Hc Hw]%no_space_cons. rewrite !app_cons_str. cbn [universal_newlines].
  rewrite bool_decide_eq_false_2; [by rewrite IH|].
  intros ->. done.
Qed.

Lemma split_lines_line w rest :
  no_space w →
  split_lines ((w +:+ String LF "") +:+ rest)
  = (w +:+ String LF "") :: split_lines rest.
Proof.
  induction w as [|c w IH]; [done|].
  intros [Hc Hw]%no_space_cons. rewrite !app_cons_str. cbn [split_lines].
  rewrite bool_decide_eq_false_2, IH; [done..|].
  intros ->. done.
Qed.

Lemma rstrip_line w : no_space w → Str.rstrip (w +:+ String LF "") = w.
Proof.
  induction w as [|c w IH]; [done|].
  intros [Hc Hw]%no_space_cons. rewrite app_cons_str. cbn [Str.rstrip].
  rewrite IH by done. destruct w; [by rewrite Hc|done].
Qed.

Lemma strip_line w : no_space w → Str.strip (w +:+ String LF "") = w.
Proof.
  intros Hw. unfold Str.strip. destruct w as [|c w]; [done|].
  apply no_space_cons in Hw as Hcw. destruct Hcw as [Hc _].
  rewrite app_cons_str. cbn [Str.lstrip]. rewrite Hc.
  rewrite <- app_cons_str. by apply rstrip_line.
Qed.

Lemma read_seeds_write_lines words :
  Forall (λ w, w ≠ "" ∧ no_space w) words →
  read_seeds (write_lines words) = words.
Proof.
  unfold read_seeds, file_lines.
  induction 1 as [|w ws [Hne Hw] _ IH]; [done|].
  rewrite write_lines_cons, universal_newlines_line, split_lines_line by done.
  unfold stripped_nonempty in *. csimpl. rewrite IH, strip_line by done.
  apply truthy_true in Hne as ->. done.
Qed.

(** X18: a word list written by [write_lines] (or [save_wordlist], which
    writes the same text) and read back as a seed file gives the words
    again, in order, provided every word is non-empty and free of
    whitespace. *)
Theorem word_list_round_trip words :
  Forall (λ w, w ≠ "" ∧ no_space w) words →
  read_seeds (write_lines words) = words
  ∧ read_seeds (save_wordlist words) = words.
Proof. intros Hw. split; by apply read_seeds_write_lines. Qed.

Lemma word_list_round_trip_witness :
  read_seeds (write_lines ["alice!"; "b0b_7"]) = ["alice!"; "b0b_7"]
  ∧ read_seeds (save_wordlist ["alice!"; "b0b_7"]) = ["alice!"; "b0b_7"].
Proof.
  apply word_list_round_trip.
  repeat (apply Forall_cons_2; [split; [discriminate|reflexivity]|]).
  apply Forall_nil_2.
Defined.

(** X19: the word list [generate_wordlist] returns survives the file: what
    [write_lines] writes of it, read back as a seed file, is the list
    itself (the stemmer being assumed to return strings over the
    alphabet of the candidates). *)
Theorem generated_list_round_trip `{SetIter, Nltk} seeds options :
  (∀ stemmer w, PorterStemmer = Some stemmer → Str.isalpha w = true →
                Str.all allowed (stemmer (Str.lower w)) = true) →
  read_seeds (write_lines (generate_wordlist seeds options))
  = generate_wordlist seeds options.
Proof.
  intros Hstem. apply read_seeds_write_lines, Forall_forall.
  intros w [Hw Hk]%elem_of_generate_wordlist. split.
  - apply keeps_bounds in Hk. intros ->. unfold Str.len in Hk. simpl in Hk. lia.
  - by eapply allowed_no_space, final_set_allowed.
Qed.

Lemma generated_list_round_trip_witness :
  read_seeds (write_lines
    (@generate_wordlist elements_iter plural_nltk ["Cats"; "7"] default_options))
  = @generate_wordlist elements_iter plural_nltk ["Cats"; "7"] default_options.
Proof.
  apply (@generated_list_round_trip elements_iter plural_nltk).
  apply plural_nltk_allowed.
Defined.

(** ** From the web form to the generator *)

Lemma no_comma_cons c s :
  no_comma (String c s) ↔ c ≠ ","%char ∧ no_comma s.
Proof.
  unfold no_comma. simpl. rewrite andb_true_iff, negb_true_iff, bool_decide_eq_false. done.
Qed.

Lemma split_nonempty sep s : split sep s ≠ [].
Proof.
  destruct s as [|c r]; simpl; [done|].
  case_bool_decide; [done|]. by destruct (split sep r).
Qed.

Lemma split_app_free x rest :
  no_comma x →
  split "," (x +:+ rest)
  = match split "," rest with
    | [] => [x]
    | p :: ps => (x +:+ p) :: ps
    end.
Proof.
  induction x as [|c x IH].
  - intros _. rewrite app_nil_str.
    pose proof (split_nonempty "," rest). by destruct (split "," rest).
  - intros [Hc Hx]%no_comma_cons. rewrite app_cons_str. cbn [split].
    rewrite bool_decide_eq_false_2, IH by done.
    by destruct (split "," rest).
Qed.

Lemma split_join x l :
  Forall no_comma (x :: l) → split "," (join "," (x :: l)) = x :: l.
Proof.
  revert x. induction l as [|y l IH]; intros x Hall.
  - apply Forall_cons in Hall as [Hx _]. cbn [join].
    rewrite <- (app_empty_str x) at 1. rewrite split_app_free by done.
    simpl. by rewrite app_empty_str.
  - apply Forall_cons in Hall as [Hx Hall]. 
    change (join "," (x :: y :: l)) with (x +:+ ("," +:+ join "," (y :: l))).
    rewrite split_app_free by done.
    change ("," +:+ join "," (y :: l)) with (String ","%char (join "," (y :: l))).
    cbn [split]. rewrite bool_decide_eq_true_2 by done.
    by rewrite IH, app_empty_str.
Qed.

Lemma parse_seeds_arg seeds :
  Forall no_comma seeds → parse_seeds (seeds_arg seeds) = stripped_nonempty seeds.
Proof.
  unfold parse_seeds, seeds_arg. destruct seeds as [|x l]; [done|].
  intros Hall. by rewrite split_join.
Qed.

Lemma keep_strip s : Str.re_sub_non_alnum (Str.strip s) = Str.re_sub_non_alnum s.
Proof. by rewrite <- (cleaned_token_keep s). Qed.

Lemma cleaned_token_strip s : cleaned_token (Str.strip s) = cleaned_token s.
Proof. by rewrite !cleaned_token_keep, keep_strip. Qed.

Lemma clean_seeds_stripped_nonempty seeds :
  _clean_seeds (stripped_nonempty seeds) = _clean_seeds seeds.
Proof.
  rewrite !clean_seeds_filter.
  assert (∀ P : string → Prop, (∀ t, P t → t ≠ "") → ∀ `{!∀ t, Decision (P t)},
            filter P (cleaned_token <$> stripped_nonempty seeds)
            = filter P (cleaned_token <$> seeds)) as Hfilter.
  { intros P HP ?. unfold stripped_nonempty.
    induction seeds as [|s seeds IH]; [done|]. csimpl.
    rewrite fmap_app, filter_app, IH.
    destruct (Str.truthy (Str.strip s)) eqn:E; simpl.
    - rewrite cleaned_token_strip.
      destruct (decide (P (cleaned_token s))).
      + by rewrite !filter_cons_True by done.
      + by rewrite !filter_cons_False by done.
    - apply truthy_false in E.
      assert (cleaned_token s = "") as Hs by (unfold cleaned_token; by rewrite E).
      rewrite filter_cons_False; [done|].
      intros ?%HP. done. }
  rewrite !Hfilter; [done|by intros ? [? _]..].
Qed.

(** X20: a list of seeds posted to the web form reaches the generator
    unharmed: joined with commas by [app.py], then split, stripped and
    rid of its blank entries by [main.py], it gives the result of the
    seeds themselves, provided no seed holds a comma. *)
Theorem posted_seeds_reach_generator `{SetIter, Nltk} seeds options :
  Forall no_comma seeds →
  parse_seeds (seeds_arg seeds) = stripped_nonempty seeds
  ∧ generate_wordlist (parse_seeds (seeds_arg seeds)) options
    = generate_wordlist seeds options.
Proof.
  intros Hall. split; [by apply parse_seeds_arg|].
  rewrite parse_seeds_arg by done.
  unfold generate_wordlist, final_set. by rewrite clean_seeds_stripped_nonempty.
Qed.

Lemma posted_seeds_reach_generator_witness :
  parse_seeds (seeds_arg [" alice "; ""; "19-97"]) = ["alice"; "19-97"]
  ∧ @generate_wordlist elements_iter no_nltk
      (parse_seeds (seeds_arg [" alice "; ""; "19-97"])) default_options
    = @generate_wordlist elements_iter no_nltk [" alice "; ""; "19-97"] default_options.
Proof.
  apply (@posted_seeds_reach_generator elements_iter no_nltk).
  repeat (apply Forall_cons_2; [reflexivity|]). apply Forall_nil_2.
Defined.

(** ** The year *)

Lemma pretty_N_char_digit x : Str.is_digit (pretty_N_char x) = true.
Proof. unfold pretty_N_char. by repeat case_match. Qed.

Lemma pretty_N_go_digits x s :
  Str.all Str.is_digit s = true → Str.all Str.is_digit (pretty_N_go x s) = true.
Proof.
  revert s. induction (N.lt_wf_0 x) as [x _ IH]; intros s Hs.
  assert (x = 0 ∨ 0 < x)%N as [->|Hx] by lia; [by rewrite pretty_N_go_0|].
  rewrite pretty_N_go_step by done. apply IH; [by apply N.div_lt|].
  simpl. by rewrite pretty_N_char_digit.
Qed.

Lemma pretty_N_go_nonempty x s : s ≠ "" → pretty_N_go x s ≠ "".
Proof.
  revert s. induction (N.lt_wf_0 x) as [x _ IH]; intros s Hs.
  assert (x = 0 ∨ 0 < x)%N as [->|Hx] by lia; [by rewrite pretty_N_go_0|].
  rewrite pretty_N_go_step by done. apply IH; [by apply N.div_lt|done].
Qed.

Lemma pretty_positive_digits (p : positive) :
  pretty p ≠ "" ∧ Str.all Str.is_digit (pretty p) = true.
Proof.
  unfold pretty, pretty_positive, pretty, pretty_N.
  rewrite decide_False by done. split.
  - rewrite pretty_N_go_step by lia. by apply pretty_N_go_nonempty.
  - by apply pretty_N_go_digits.
Qed.

Lemma keep_all p s : Str.all p s = true → Str.keep p s = s.
Proof.
  induction s as [|c s IH]; simpl; [done|].
  intros [-> ?]%andb_true_iff. by rewrite IH.
Qed.

Lemma digits_alnum s : Str.all Str.is_digit s = true → Str.all Str.is_alnum s = true.
Proof.
  apply all_impl. intros c Hc. unfold Str.is_alnum. rewrite Hc. apply orb_true_r.
Qed.

Lemma cleaned_token_year (year : Z) :
  cleaned_token (pretty year) = pretty (Z.abs year)
  ∧ is_number_token (pretty (Z.abs year)).
Proof.
  rewrite cleaned_token_keep. unfold Str.re_sub_non_alnum.
  destruct year as [|p|p].
  - split; [done|]. by split.
  - destruct (pretty_positive_digits p) as [Hne Hd].
    change (pretty (Z.abs (Z.pos p))) with (pretty p).
    change (pretty (Z.pos p)) with (pretty p).
    rewrite keep_all by (by apply digits_alnum). by split.
  - destruct (pretty_positive_digits p) as [Hne Hd].
    change (pretty (Z.abs (Z.neg p))) with (pretty p).
    change (pretty (Z.neg p)) with (String "-"%char (pretty p)).
    cbn [Str.keep]. change (Str.is_alnum "-") with false. cbv iota.
    rewrite keep_all by (by apply digits_alnum). by split.
Qed.

(** X21: a year given with [--year] and different from 0 becomes a seed
    that the generator takes for a number: its decimal numeral, without
    the sign.  A year of 0 is ignored. *)
Theorem year_seed args year :
  arg_year args = Some year →
  (year ≠ 0%Z →
     pretty year ∈ collect_seeds args
     ∧ cleaned_token (pretty year) = pretty (Z.abs year)
     ∧ is_number_token (cleaned_token (pretty year)))
  ∧ (year = 0%Z → collect_seeds args = collect_seeds (without_year args)).
Proof.
  intros Hy. split.
  - intros Hne. destruct (cleaned_token_year year) as [Heq Hn]. split_and!.
    + unfold collect_seeds. rewrite Hy.
      destruct (Z.eqb_spec year 0); [done|]. apply elem_of_app. right. by left.
    + done.
    + by rewrite Heq.
  - intros ->. unfold collect_seeds. by rewrite Hy.
Qed.

Lemma year_seed_witness :
  "-44" ∈ collect_seeds {| arg_from_file := None; arg_seeds := Some "rex";
                            arg_name := None; arg_pet := None;
                            arg_year := Some (-44)%Z; arg_length := 12;
                            arg_rules := ""; arg_out := "out.txt" |}
  ∧ cleaned_token "-44" = "44"
  ∧ is_number_token (cleaned_token "-44").
Proof.
  refine (proj1 (year_seed {| arg_from_file := None; arg_seeds := Some "rex";
                              arg_name := None; arg_pet := None;
                              arg_year := Some (-44)%Z; arg_length := 12;
                              arg_rules := ""; arg_out := "out.txt" |}
                   (-44)%Z eq_refl) _).
  discriminate.
Defined.

(** ** The command: when it gives up, when it writes *)

Lemma append_if_given_nil seeds arg :
  append_if_given seeds arg = [] ↔ seeds = [] ∧ (arg = None ∨ arg = Some "").
Proof.
  unfold append_if_given. destruct arg as [[|c r]|]; simpl.
  - naive_solver.
  - split; [by destruct seeds|]. intros [_ [?|?]]; done.
  - naive_solver.
Qed.

Lemma generate_wordlist_without_tokens `{SetIter, Nltk} seeds options :
  _clean_seeds seeds = ([], []) → generate_wordlist seeds options = [].
Proof.
  intros Hclean. apply empty_by_members. intros w Hw.
  apply elem_of_generate_wordlist in Hw as [Hw _].
  apply elem_of_final_set in Hw. rewrite Hclean in Hw.
  by apply not_candidate_without_seeds in Hw.
Qed.

(** X22: [main.py generate] gives up, with exit code 2 and nothing
    written, exactly when the seed file is missing or no seed is
    collected: nothing non-blank in the file or under [--seeds], no
    non-empty [--name] or [--pet], and no [--year] other than 0. *)
Theorem main_generate_exit `{SetIter, Nltk} args :
  let listed :=
    match arg_from_file args with
    | Some (Some text) => read_seeds text
    | Some None => []
    | None => from_option parse_seeds [] (arg_seeds args)
    end in
  (∀ code, main_generate args = Exit code → code = 2%Z)
  ∧ (main_generate args = Exit 2 ↔
       arg_from_file args = Some None
       ∨ (listed = []
          ∧ (arg_name args = None ∨ arg_name args = Some "")
          ∧ (arg_pet args = None ∨ arg_pet args = Some "")
          ∧ (arg_year args = None ∨ arg_year args = Some 0%Z))).
Proof.
  intros listed.
  assert (collect_seeds args = [] ↔
          listed = []
          ∧ (arg_name args = None ∨ arg_name args = Some "")
          ∧ (arg_pet args = None ∨ arg_pet args = Some "")
          ∧ (arg_year args = None ∨ arg_year args = Some 0%Z)) as Hnil.
  { unfold collect_seeds.
    assert (match arg_from_file args with
            | Some (Some text) => read_seeds text
            | Some None => []
            | None => match arg_seeds args with
                      | Some s => if Str.truthy s then parse_seeds s else []
                      | None => []
                      end
            end = listed) as ->.
    { unfold listed. destruct (arg_from_file args) as [[?|]|]; try done.
      destruct (arg_seeds args) as [[|c r]|]; done. }
    destruct (arg_year args) as [year|].
    - destruct (Z.eqb_spec year 0) as [->|Hy].
      + rewrite !append_if_given_nil. naive_solver.
      + split; [by destruct (append_if_given _ _)|].
        intros (_ & _ & _ & [?|?]); congruence.
    - rewrite !append_if_given_nil. naive_solver. }
  unfold main_generate.
  destruct (arg_from_file args) as [[text|]|] eqn:Hf.
  - destruct (collect_seeds args) eqn:Hc.
    + split; [by intros ? [= <-]|]. split; [intros _; right; by apply Hnil|done].
    + split; [done|]. split; [done|]. intros [?|Hl%Hnil]; done.
  - split; [by intros ? [= <-]|]. split; [by left|done].
  - destruct (collect_seeds args) eqn:Hc.
    + split; [by intros ? [= <-]|]. split; [intros _; right; by apply Hnil|done].
    + split; [done|]. split; [done|]. intros [?|Hl%Hnil]; done.
Qed.

(** X23: seeds that are collected but all cleaned away do not make the
    command give up: it writes an empty file. *)
Theorem main_generate_empty_file `{SetIter, Nltk} args :
  arg_from_file args ≠ Some None →
  collect_seeds args ≠ [] →
  Forall (λ seed, cleaned_token seed = "") (collect_seeds args) →
  main_generate args = Wrote (arg_out args) "".
Proof.
  intros Hf Hne Hall. unfold main_generate.
  rewrite generate_wordlist_without_tokens by by apply clean_seeds_all_discarded.
  destruct (arg_from_file args) as [[?|]|]; [|done|];
    by destruct (collect_seeds args).
Qed.

Lemma main_generate_empty_file_witness :
  @main_generate elements_iter no_nltk
    {| arg_from_file := None; arg_seeds := Some "?!, --"; arg_name := Some "_";
       arg_pet := None; arg_year := None; arg_length := 12; arg_rules := "";
       arg_out := "wordlist.txt" |}
  = Wrote "wordlist.txt" "".
Proof.
  apply (@main_generate_empty_file elements_iter no_nltk); [discriminate|discriminate|].
  repeat (apply Forall_cons_2; [reflexivity|]). apply Forall_nil_2.
Defined.

(** ** The character-set estimate *)

Lemma ascii_text_cons c s :
  ascii_text (String c s) ↔ (Str.ord c <? 128)%N = true ∧ ascii_text s.
Proof. unfold ascii_text. simpl. by rewrite andb_true_iff. Qed.

Lemma any_char_app p a b : any_char p (a +:+ b) = any_char p a || any_char p b.
Proof.
  induction a as [|c a IH]; rewrite ?app_cons_str; simpl; [done|].
  by rewrite IH, orb_assoc.
Qed.

Lemma char_in_a_class c :
  Str.is_lower c || Str.is_upper c || Str.is_digit c || negb (Str.is_alnum c) = true.
Proof. by_code_point c. Qed.

(** X24: [charset_size] is 0 for the empty password only; for a
    non-empty ASCII password it lies between 10 and 94. *)
Theorem charset_size_bounds password :
  ascii_text password →
  (charset_size password = 0%Z ↔ password = "")
  ∧ (password ≠ "" → (10 ≤ charset_size password ≤ 94)%Z).
Proof.
  intros _. unfold charset_size.
  destruct password as [|c r]; [by split|]. simpl.
  pose proof (char_in_a_class c) as Hc.
  destruct (Str.is_lower c), (Str.is_upper c), (Str.is_digit c),
    (negb (Str.is_alnum c)); simpl in *; try done;
    repeat match goal with |- context [if ?b then _ else _] => destruct b end;
    (split; [split; [lia|done]|lia]).
Qed.

Lemma charset_size_bounds_witness :
  (10 ≤ charset_size "P@ssw0rd" ≤ 94)%Z.
Proof.
  destruct (charset_size_bounds "P@ssw0rd") as [_ Hb]; [reflexivity|].
  apply Hb. discriminate.
Defined.

(** X25: appending characters never lowers the estimate. *)
Theorem charset_size_grows a b :
  ascii_text a → ascii_text b →
  (charset_size a ≤ charset_size (a +:+ b))%Z
  ∧ (charset_size b ≤ charset_size (a +:+ b))%Z.
Proof.
  intros _ _. unfold charset_size. rewrite !any_char_app.
  split;
    repeat match goal with |- context [any_char ?p ?s] => destruct (any_char p s) end;
    simpl; lia.
Qed.

Lemma charset_size_grows_witness :
  (charset_size "alice" ≤ charset_size ("alice" +:+ "_1997"))%Z
  ∧ (charset_size "_1997" ≤ charset_size ("alice" +:+ "_1997"))%Z.
Proof. apply charset_size_grows; reflexivity. Defined.

(** ** Every candidate has a seed behind it *)

Lemma pattern_of_around years v x :
  pattern_of years v x → ∃ pre post, x = pre +:+ v +:+ post.
Proof.
  intros (_ & [->|[(n & _ & _ & [->|[->| ->]])|(s & _ & [->|[->|[->|(n & _ & [->| ->])]]])]]).
  - exists "", "". by rewrite app_nil_str, app_empty_str.
  - by exists "", n.
  - exists "", ("_" +:+ n). by rewrite app_nil_str, app_assoc_str.
  - exists n, "". by rewrite app_empty_str.
  - by exists "", s.
  - exists s, "". by rewrite app_empty_str.
  - by exists "", (s +:+ s).
  - exists "", (s +:+ n). by rewrite app_nil_str, app_assoc_str.
  - exists s, n. by rewrite app_assoc_str.
Qed.

Lemma is_base_around `{Nltk} cw ns x :
  is_base cw ns x →
  ∃ pre core post, x = pre +:+ core +:+ post ∧ (is_variation cw core ∨ core ∈ ns).
Proof.
  intros [(w & num & Hw & Hn & [->| ->])|[(v & Hv & Hx)|[Hn|Hv]]].
  - exists "", w, num. split; [done|by left].
  - exists num, w, "". split; [by rewrite app_empty_str|by left].
  - apply pattern_of_around in Hx as (pre & post & ->).
    exists pre, v, post. split; [done|by left].
  - exists "", x, "". split; [by rewrite app_nil_str, app_empty_str|by right].
  - exists "", x, "". split; [by rewrite app_nil_str, app_empty_str|by left].
Qed.

(** X26: no candidate comes from nowhere: every string of the output
    holds, as a contiguous part, the token of a number seed or a variant
    (case form or leetspeak variant) of the token of a word seed or of
    its stem. *)
Theorem candidates_hold_a_seed `{SetIter, Nltk} seeds options w :
  w ∈ generate_wordlist seeds options →
  ∃ seed pre core post,
    seed ∈ seeds ∧ w = pre +:+ core +:+ post
    ∧ ((is_number_token (cleaned_token seed) ∧ core = cleaned_token seed)
       ∨ (is_word_token (cleaned_token seed)
          ∧ ∃ base, base ∈ _stem_word (cleaned_token seed)
                    ∧ variation_of base core)).
Proof.
  intros [Hw _]%elem_of_generate_wordlist. apply elem_of_final_set in Hw.
  assert (∃ pre core post, w = pre +:+ core +:+ post
            ∧ (is_variation (_clean_seeds seeds).1 core
               ∨ core ∈ (_clean_seeds seeds).2)) as (pre & core & post & -> & Hcore).
  { destruct Hw as [Hb|(b & suf & Hb & _ & -> & _)].
    - by apply is_base_around.
    - apply is_base_around in Hb as (pre & core & post & -> & Hcore).
      exists pre, core, (post +:+ suf). split; [|done].
      by rewrite !app_assoc_str. }
  destruct Hcore as [(t & base & Ht & Hbase & Hv)|Hn].
  - apply elem_of_clean_words in Ht as (Hword & seed & Hseed & ->).
    exists seed, pre, core, post. split_and!; [done..|]. right. split; [done|].
    exists base. split; [by apply elem_of_stem_word|done].
  - apply elem_of_clean_numbers in Hn as (Hnum & seed & Hseed & ->).
    exists seed, pre, (cleaned_token seed), post. split_and!; [done..|]. by left.
Qed.

Lemma candidates_hold_a_seed_witness :
  ∃ seed pre core post,
    seed ∈ ["Bob"] ∧ "bob" = pre +:+ core +:+ post
    ∧ ((is_number_token (cleaned_token seed) ∧ core = cleaned_token seed)
       ∨ (is_word_token (cleaned_token seed)
          ∧ ∃ base, base ∈ @_stem_word elements_iter no_nltk (cleaned_token seed)
                    ∧ variation_of base core)).
Proof.
  apply (@candidates_hold_a_seed elements_iter no_nltk ["Bob"] default_options "bob").
  apply (@lower_token_in_output elements_iter no_nltk ["Bob"] _ "Bob");
    [compute_done|compute_done|vm_compute; split; discriminate].
Defined.
